(** * MyContainer: a generic container with six snapshot traversal orders

    Shallow embedding of [MyContainer.hpp] and of the six iterator classes of
    [Iterators/]: [Order], [ReverseOrder], [AscendingOrder],
    [DescendingOrder], [SideCrossOrder] and [MiddleOutOrder].

    - A [std::vector<T>] is a [list T]; its [size()] is a [size_t], here a
      [Z] reduced modulo [2^64].
    - [long] is a [Z] wrapped into the signed 64-bit range.
    - Code that can throw, read a vector out of range, or loop returns a
      [result]: a value, a thrown exception, undefined behaviour, or fuel
      exhausted (the [while] loops are run with an explicit fuel).
    - A [const T&] argument is a reference: to an object outside the
      vector, or to one of its elements, read anew at every use.
    - [std::remove] and [std::sort] are the loops of libstdc++;
      [std::sort] is also given by its contract, which is all the
      properties of the sorted orders rest on. *)

From Stdlib Require Import String Ascii DecimalString.
From Stdlib Require Import ZArith List Bool Lia Arith.
From Stdlib Require Import Sorting.Permutation Sorting.Sorted.
Import ListNotations.

Set Implicit Arguments.
Local Open Scope Z_scope.

(* ================================================================== *)
(** ** Machine integers *)

Definition SIZE_MAX_plus_1 : Z := 2 ^ 64.

(** Arithmetic on [std::size_t] wraps modulo [2^64]. *)
Definition size_t (z : Z) : Z := z mod SIZE_MAX_plus_1.

(** [static_cast<long>] and arithmetic on [long], on an LP64 target. *)
Definition long (z : Z) : Z := (z + 2 ^ 63) mod SIZE_MAX_plus_1 - 2 ^ 63.

(** [std::vector<T>::size()]. *)
Definition size {T} (v : list T) : Z := Z.of_nat (length v).

(** A vector never holds more than [PTRDIFF_MAX] elements
    ([std::vector::max_size]). *)
Definition max_size : Z := 2 ^ 63 - 1.

Definition fits {T} (v : list T) : Prop := size v <= max_size.

(* ================================================================== *)
(** ** Outcomes of a computation *)

Inductive exception : Type :=
| runtime_error (what : string)
| out_of_range.

Inductive result (A : Type) : Type :=
| Ok (a : A)
| Throw (e : exception)
| Undefined
| OutOfFuel.

Arguments Ok {A} a.
Arguments Throw {A} e.
Arguments Undefined {A}.
Arguments OutOfFuel {A}.

Definition bind {A B} (m : result A) (k : A -> result B) : result B :=
  match m with
  | Ok a => k a
  | Throw e => Throw e
  | Undefined => Undefined
  | OutOfFuel => OutOfFuel
  end.

Notation "x <- m ;; k" := (bind m (fun x => k))
  (at level 61, m at next level, right associativity).

Notation "' p <- m ;; k" := (bind m (fun p => k))
  (at level 61, p strict pattern, m at next level, right associativity).

(** [while (cond) body], unrolled at most [fuel] times. *)
Fixpoint while {S} (fuel : nat) (cond : S -> bool) (body : S -> result S)
    (s : S) : result S :=
  if cond s then
    match fuel with
    | O => OutOfFuel
    | Datatypes.S fuel' => s' <- body s ;; while fuel' cond body s'
    end
  else Ok s.

(** The state after exactly [k] runs of the loop body. *)
Fixpoint iterate {S} (k : nat) (body : S -> result S) (s : S) : result S :=
  match k with
  | O => Ok s
  | Datatypes.S k' => s' <- body s ;; iterate k' body s'
  end.

(** [v[k]]: unchecked, undefined outside [0 .. size). *)
Definition subscript {T} (v : list T) (k : Z) : result T :=
  if (0 <=? k) && (k <? size v) then
    match nth_error v (Z.to_nat k) with
    | Some x => Ok x
    | None => Undefined
    end
  else Undefined.

(** [v.at(k)]: throws [std::out_of_range] when [k >= size]. *)
Definition at_ {T} (v : list T) (k : Z) : result T :=
  if size v <=? k then Throw out_of_range
  else match nth_error v (Z.to_nat k) with
       | Some x => Ok x
       | None => Undefined
       end.

(** What [std::endl] writes: a line feed. *)
Definition endl : string := String "010" EmptyString.

(* ================================================================== *)
(** ** The element type *)

(** What the templates use of [T]: [operator==], [operator<], [operator>]
    and stream insertion. *)
Class Element (T : Type) : Type := {
  eqb : T -> T -> bool;
  ltb : T -> T -> bool;
  gtb : T -> T -> bool;
  show : T -> string
}.

(** The [Compare] requirement of the standard library: a strict weak
    ordering. *)
Class StrictWeakOrder {T} (comp : T -> T -> bool) : Prop := {
  swo_irrefl : forall a, comp a a = false;
  swo_trans : forall a b c, comp a b = true -> comp b c = true -> comp a c = true;
  swo_equiv_trans : forall a b c,
      comp a b = false -> comp b a = false ->
      comp b c = false -> comp c b = false ->
      comp a c = false /\ comp c a = false
}.

(** [a] may stand before [b] in a range sorted by [comp]. *)
Definition not_after {T} (comp : T -> T -> bool) (a b : T) : Prop :=
  comp b a = false.

(** The contract of [std::sort(first, last, comp)]: the range is permuted
    and ends sorted with respect to [comp]; nothing is said about the
    order of equivalent elements. *)
Class StdSort (T : Type) : Type := {
  std_sort : (T -> T -> bool) -> list T -> list T;
  std_sort_perm : forall comp l,
      StrictWeakOrder comp -> Permutation l (std_sort comp l);
  std_sort_sorted : forall comp l,
      StrictWeakOrder comp -> StronglySorted (not_after comp) (std_sort comp l)
}.

(** The stable sort: insertion from the right, an element going in front
    of the first one that is not before it. *)
Fixpoint stable_insert {T} (comp : T -> T -> bool) (x : T) (l : list T) : list T :=
  match l with
  | [] => [x]
  | y :: r => if comp y x then y :: stable_insert comp x r else x :: y :: r
  end.

Definition stable_sort {T} (comp : T -> T -> bool) (l : list T) : list T :=
  fold_right (stable_insert comp) [] l.

(** Equivalence under [comp]: neither element is before the other. *)
Definition equivalent {T} (comp : T -> T -> bool) (a b : T) : bool :=
  negb (comp a b) && negb (comp b a).

(* ================================================================== *)
(** ** References, moves and [std::remove]

    [removeElement] receives its argument as [const T&]. The reference
    designates either an object outside the vector, whose value stays what
    it is, or an element of the vector itself, as in
    [c.removeElement(c.getData()[0])]. [std::remove] holds the reference
    and reads through it at every comparison, while it moves elements. *)

Inductive cref (T : Type) : Type :=
| Outside (v : T)
| Inside (i : nat).

Arguments Outside {T} v.
Arguments Inside {T} i.

(** What move assignment leaves in the object moved from. *)
Class MoveAssign (T : Type) : Type := { moved_from : T -> T }.

(** [*(first + i)]: undefined outside the vector. *)
Definition element {T} (a : list T) (i : nat) : result T :=
  match nth_error a i with
  | Some x => Ok x
  | None => Undefined
  end.

(** [*(first + i) = x]. *)
Fixpoint assign {T} (a : list T) (i : nat) (x : T) : list T :=
  match a, i with
  | [], _ => []
  | _ :: a', O => x :: a'
  | y :: a', S i' => y :: assign a' i' x
  end.

(** Reading through a reference, in the vector as it stands. *)
Definition read {T} (a : list T) (r : cref T) : result T :=
  match r with
  | Outside v => Ok v
  | Inside i => element a i
  end.

Section StdRemove.
Context {T : Type} `{Element T} `{MoveAssign T}.

(** [std::__find_if] with the predicate [*it == value]: the first position
    from [first] on whose element equals the value, or the end ([todo]
    positions remain). *)
Fixpoint find_if (a : list T) (value : cref T) (first todo : nat) : result nat :=
  match todo with
  | O => Ok first
  | S todo' =>
      x <- element a first ;;
      v <- read a value ;;
      if eqb x v then Ok first else find_if a value (S first) todo'
  end.

(** The loop of [std::__remove_if], with [dest] for its [__result]:
    [for (; first != last; ++first)
       if (!pred(first)) { *dest = std::move( *first); ++dest; }]. *)
Fixpoint remove_loop (a : list T) (value : cref T) (dest first todo : nat)
  : result (list T * nat) :=
  match todo with
  | O => Ok (a, dest)
  | S todo' =>
      x <- element a first ;;
      v <- read a value ;;
      if negb (eqb x v) then
        remove_loop (assign (assign a dest x) first (moved_from x)) value
                    (S dest) (S first) todo'
      else remove_loop a value dest (S first) todo'
  end.

(** [std::remove(begin, end, value)]: the vector afterwards and the
    returned position. *)
Definition std_remove (a : list T) (value : cref T) : result (list T * nat) :=
  let last := length a in
  first <- find_if a value 0 last ;;
  if (first =? last)%nat then Ok (a, first)
  else remove_loop a value first (S first) (last - S first).

End StdRemove.

(* ================================================================== *)
(** ** [std::sort], as the library of the compiler runs it

    [bits/stl_algo.h] and [bits/stl_heap.h] of libstdc++: an introsort.
    Positions are offsets from the start of the vector; the loops whose
    end depends on the comparisons run on a fuel of the length of the
    vector. *)

Module Libstdcxx.

Section Introsort.
Context {T : Type} `{MoveAssign T}.
Variable comp : T -> T -> bool.

(** [*(first + p) = x]. *)
Definition poke (v : list T) (p : Z) (x : T) : result (list T) :=
  if (0 <=? p) && (p <? size v) then Ok (assign v (Z.to_nat p) x) else Undefined.

(** [std::move( *(first + p))]: the value, and the vector with the
    moved-from object in its place. *)
Definition take (v : list T) (p : Z) : result (T * list T) :=
  x <- subscript v p ;;
  v' <- poke v p (moved_from x) ;;
  Ok (x, v').

(** [std::iter_swap(a, b)]: [tmp = move( *a); *a = move( *b); *b = move(tmp)]. *)
Definition iter_swap (v : list T) (a b : Z) : result (list T) :=
  ' (tmp, v1) <- take v a ;;
  ' (y, v2) <- take v1 b ;;
  v3 <- poke v2 a y ;;
  poke v3 b tmp.

Definition fuel_of (v : list T) : nat := S (length v).

(** [__move_median_to_first(result, a, b, c, comp)]. *)
Definition move_median_to_first (v : list T) (dest a b c : Z) : result (list T) :=
  xa <- subscript v a ;;
  xb <- subscript v b ;;
  xc <- subscript v c ;;
  if comp xa xb then
    if comp xb xc then iter_swap v dest b
    else if comp xa xc then iter_swap v dest c
    else iter_swap v dest a
  else if comp xa xc then iter_swap v dest a
  else if comp xb xc then iter_swap v dest c
  else iter_swap v dest b.

(** [while (comp(first, pivot)) ++first;] *)
Fixpoint scan_up (fuel : nat) (v : list T) (first pivot : Z) : result Z :=
  match fuel with
  | O => OutOfFuel
  | S fuel' =>
      x <- subscript v first ;;
      pv <- subscript v pivot ;;
      if comp x pv then scan_up fuel' v (first + 1) pivot else Ok first
  end.

(** [while (comp(pivot, last)) --last;] *)
Fixpoint scan_down (fuel : nat) (v : list T) (last pivot : Z) : result Z :=
  match fuel with
  | O => OutOfFuel
  | S fuel' =>
      pv <- subscript v pivot ;;
      x <- subscript v last ;;
      if comp pv x then scan_down fuel' v (last - 1) pivot else Ok last
  end.

(** [__unguarded_partition(first, last, pivot, comp)]. *)
Fixpoint unguarded_partition (fuel : nat) (v : list T) (first last pivot : Z)
  : result (list T * Z) :=
  match fuel with
  | O => OutOfFuel
  | S fuel' =>
      first1 <- scan_up (fuel_of v) v first pivot ;;
      last1 <- scan_down (fuel_of v) v (last - 1) pivot ;;
      if negb (first1 <? last1) then Ok (v, first1)
      else
        v' <- iter_swap v first1 last1 ;;
        unguarded_partition fuel' v' (first1 + 1) last1 pivot
  end.

(** [__unguarded_partition_pivot(first, last, comp)]. *)
Definition unguarded_partition_pivot (v : list T) (first last : Z)
  : result (list T * Z) :=
  let mid := first + Z.quot (last - first) 2 in
  v' <- move_median_to_first v first (first + 1) mid (last - 1) ;;
  unguarded_partition (fuel_of v) v' (first + 1) last first.

(** The loop of [__unguarded_linear_insert], [val] being held aside. *)
Fixpoint linear_insert_loop (fuel : nat) (v : list T) (val : T) (last next : Z)
  : result (list T) :=
  match fuel with
  | O => OutOfFuel
  | S fuel' =>
      y <- subscript v next ;;
      if comp val y then
        ' (y', v1) <- take v next ;;
        v2 <- poke v1 last y' ;;
        linear_insert_loop fuel' v2 val next (next - 1)
      else poke v last val
  end.

(** [__unguarded_linear_insert(last, comp)]. *)
Definition unguarded_linear_insert (v : list T) (last : Z) : result (list T) :=
  ' (val, v1) <- take v last ;;
  linear_insert_loop (fuel_of v) v1 val last (last - 1).

(** [std::move_backward(first, last, d_last)], [n] elements to go. *)
Fixpoint move_backward (n : nat) (v : list T) (last d_last : Z) : result (list T) :=
  match n with
  | O => Ok v
  | S n' =>
      ' (x, v1) <- take v (last - 1) ;;
      v2 <- poke v1 (d_last - 1) x ;;
      move_backward n' v2 (last - 1) (d_last - 1)
  end.

(** The loop of [__insertion_sort], from [i] on, [todo] positions to go. *)
Fixpoint insertion_sort_loop (todo : nat) (v : list T) (first i : Z)
  : result (list T) :=
  match todo with
  | O => Ok v
  | S todo' =>
      xi <- subscript v i ;;
      xf <- subscript v first ;;
      v' <- (if comp xi xf then
               ' (val, v1) <- take v i ;;
               v2 <- move_backward (Z.to_nat (i - first)) v1 i (i + 1) ;;
               poke v2 first val
             else unguarded_linear_insert v i) ;;
      insertion_sort_loop todo' v' first (i + 1)
  end.

(** [__insertion_sort(first, last, comp)]. *)
Definition insertion_sort (v : list T) (first last : Z) : result (list T) :=
  if first =? last then Ok v
  else insertion_sort_loop (Z.to_nat (last - (first + 1))) v first (first + 1).

(** [__unguarded_insertion_sort(first, last, comp)], [todo] positions to go. *)
Fixpoint unguarded_insertion_sort (todo : nat) (v : list T) (i : Z)
  : result (list T) :=
  match todo with
  | O => Ok v
  | S todo' =>
      v' <- unguarded_linear_insert v i ;;
      unguarded_insertion_sort todo' v' (i + 1)
  end.

Definition S_threshold : Z := 16.

(** [__final_insertion_sort(first, last, comp)]. *)
Definition final_insertion_sort (v : list T) (first last : Z) : result (list T) :=
  if last - first >? S_threshold then
    v' <- insertion_sort v first (first + S_threshold) ;;
    unguarded_insertion_sort (Z.to_nat (last - (first + S_threshold))) v'
                             (first + S_threshold)
  else insertion_sort v first last.

(** [__push_heap(first, holeIndex, topIndex, value, comp)]. *)
Fixpoint push_heap (fuel : nat) (v : list T) (first holeIndex topIndex : Z)
    (value : T) : result (list T) :=
  match fuel with
  | O => OutOfFuel
  | S fuel' =>
      let parent := Z.quot (holeIndex - 1) 2 in
      if holeIndex >? topIndex then
        p <- subscript v (first + parent) ;;
        if comp p value then
          ' (p', v1) <- take v (first + parent) ;;
          v2 <- poke v1 (first + holeIndex) p' ;;
          push_heap fuel' v2 first parent topIndex value
        else poke v (first + holeIndex) value
      else poke v (first + holeIndex) value
  end.

(** The [while] loop of [__adjust_heap]. *)
Fixpoint adjust_heap_loop (fuel : nat) (v : list T)
    (first holeIndex secondChild len : Z) : result (list T * Z * Z) :=
  match fuel with
  | O => OutOfFuel
  | S fuel' =>
      if secondChild <? Z.quot (len - 1) 2 then
        let secondChild1 := 2 * (secondChild + 1) in
        x <- subscript v (first + secondChild1) ;;
        y <- subscript v (first + (secondChild1 - 1)) ;;
        let secondChild2 := if comp x y then secondChild1 - 1 else secondChild1 in
        ' (z, v1) <- take v (first + secondChild2) ;;
        v2 <- poke v1 (first + holeIndex) z ;;
        adjust_heap_loop fuel' v2 first secondChild2 secondChild2 len
      else Ok (v, holeIndex, secondChild)
  end.

(** [__adjust_heap(first, holeIndex, len, value, comp)]. *)
Definition adjust_heap (v : list T) (first holeIndex len : Z) (value : T)
  : result (list T) :=
  let topIndex := holeIndex in
  ' (v1, holeIndex1, secondChild1)
    <- adjust_heap_loop (fuel_of v) v first holeIndex holeIndex len ;;
  ' (v2, holeIndex2)
    <- (if (Z.land len 1 =? 0) && (secondChild1 =? Z.quot (len - 2) 2) then
          let secondChild2 := 2 * (secondChild1 + 1) in
          ' (z, va) <- take v1 (first + (secondChild2 - 1)) ;;
          vb <- poke va (first + holeIndex1) z ;;
          Ok (vb, secondChild2 - 1)
        else Ok (v1, holeIndex1)) ;;
  push_heap (fuel_of v) v2 first holeIndex2 topIndex value.

(** [__pop_heap(first, last, result, comp)]. *)
Definition pop_heap (v : list T) (first last dest : Z) : result (list T) :=
  ' (value, v1) <- take v dest ;;
  ' (top, v2) <- take v1 first ;;
  v3 <- poke v2 dest top ;;
  adjust_heap v3 first 0 (last - first) value.

(** The loop of [__make_heap]. *)
Fixpoint make_heap_loop (fuel : nat) (v : list T) (first parent len : Z)
  : result (list T) :=
  match fuel with
  | O => OutOfFuel
  | S fuel' =>
      ' (value, v1) <- take v (first + parent) ;;
      v2 <- adjust_heap v1 first parent len value ;;
      if parent =? 0 then Ok v2
      else make_heap_loop fuel' v2 first (parent - 1) len
  end.

(** [__make_heap(first, last, comp)]. *)
Definition make_heap (v : list T) (first last : Z) : result (list T) :=
  if last - first <? 2 then Ok v
  else
    let len := last - first in
    make_heap_loop (fuel_of v) v first (Z.quot (len - 2) 2) len.

(** The loop of [__heap_select], from [i] on. *)
Fixpoint heap_select_loop (todo : nat) (v : list T) (first middle i : Z)
  : result (list T) :=
  match todo with
  | O => Ok v
  | S todo' =>
      xi <- subscript v i ;;
      xf <- subscript v first ;;
      v' <- (if comp xi xf then pop_heap v first middle i else Ok v) ;;
      heap_select_loop todo' v' first middle (i + 1)
  end.

(** [__heap_select(first, middle, last, comp)]. *)
Definition heap_select (v : list T) (first middle last : Z) : result (list T) :=
  v' <- make_heap v first middle ;;
  heap_select_loop (Z.to_nat (last - middle)) v' first middle middle.

(** [__sort_heap(first, last, comp)]. *)
Fixpoint sort_heap (fuel : nat) (v : list T) (first last : Z) : result (list T) :=
  match fuel with
  | O => OutOfFuel
  | S fuel' =>
      if last - first >? 1 then
        v' <- pop_heap v first (last - 1) (last - 1) ;;
        sort_heap fuel' v' first (last - 1)
      else Ok v
  end.

(** [__partial_sort(first, middle, last, comp)]. *)
Definition partial_sort (v : list T) (first middle last : Z) : result (list T) :=
  v' <- heap_select v first middle last ;;
  sort_heap (fuel_of v) v' first middle.

(** [__introsort_loop(first, last, depth_limit, comp)]: every turn of its
    loop lowers [depth_limit], and going round the loop with [last = cut]
    is the second call here. *)
Fixpoint introsort_loop (depth_limit : nat) (v : list T) (first last : Z)
  : result (list T) :=
  if last - first >? S_threshold then
    match depth_limit with
    | O => partial_sort v first last last
    | S depth_limit' =>
        ' (v1, cut) <- unguarded_partition_pivot v first last ;;
        v2 <- introsort_loop depth_limit' v1 cut last ;;
        introsort_loop depth_limit' v2 first cut
    end
  else Ok v.

(** [std::__lg(n)]: the position of the highest bit set. *)
Definition lg (n : Z) : Z := Z.log2 n.

(** [__sort(first, last, comp)]. *)
Definition sort_range (v : list T) (first last : Z) : result (list T) :=
  if negb (first =? last) then
    v' <- introsort_loop (Z.to_nat (lg (last - first) * 2)) v first last ;;
    final_insertion_sort v' first last
  else Ok v.

(** [std::sort(v.begin(), v.end(), comp)]. *)
Definition sort (v : list T) : result (list T) := sort_range v 0 (size v).

End Introsort.

End Libstdcxx.

(* ================================================================== *)
(** ** [MyContainer<T>] *)

Module MyContainer.

Section Members.
Context {T : Type} `{Element T} `{MoveAssign T}.

(** The class holds one member, [std::vector<T> data]. *)
Record t : Type := mk { data : list T }.

(** [MyContainer() = default]. *)
Definition empty : t := mk [].

(** [print(os)]: every element followed by a space, then [std::endl].
    The stream is the text written so far. *)
Definition print (os : string) (c : t) : string :=
  (fold_left (fun os e => os ++ show e ++ " ") (data c) os ++ endl)%string.

(** [addElement(value)]: [data.push_back(value)]. *)
Definition addElement (value : T) (c : t) : t := mk (data c ++ [value]).

Definition not_found : exception :=
  runtime_error "This element does not exist in the container".

(** [removeElement(value)]: the container after the call, and whether the
    call returned or threw. [data.erase(new_end, data.end())] keeps the
    elements before the position [std::remove] returned; the erase happens
    before the size test. A reference to no element is undefined
    behaviour. *)
Definition removeElement (value : cref T) (c : t) : t * result unit :=
  let before := size (data c) in
  match std_remove (data c) value with
  | Ok (a, new_end) =>
      let data' := firstn new_end a in
      if size data' =? before then (mk data', Throw not_found)
      else (mk data', Ok tt)
  | Throw e => (c, Throw e)
  | Undefined => (c, Undefined)
  | OutOfFuel => (c, OutOfFuel)
  end.

(** [size()]. *)
Definition size (c : t) : Z := size (data c).

(** [getData()]. *)
Definition getData (c : t) : list T := data c.

End Members.

Arguments t T : clear implicits.

End MyContainer.

(** [operator<<(os, c)]. *)
Definition stream_insert {T} `{Element T} (os : string) (c : MyContainer.t T) : string :=
  MyContainer.print os c.

(* ================================================================== *)
(** ** The iterator classes

    The six classes have the same two members and, member for member, the
    same constructor and operators; they differ in [make] alone. One record,
    indexed by the class, stands for all six. *)

Inductive Kind : Type :=
| Order | ReverseOrder | AscendingOrder | DescendingOrder
| SideCrossOrder | MiddleOutOrder.

Record iterator (T : Type) (k : Kind) : Type := Iterator {
  view : list T;
  idx : Z
}.

Arguments Iterator {T} k view idx.
Arguments view {T k} _.
Arguments idx {T k} _.

(** [std::vector]'s [operator==]: equal sizes, then element-wise [==]. *)
Fixpoint equal_elements {T} `{Element T} (a b : list T) : bool :=
  match a, b with
  | [], [] => true
  | x :: a', y :: b' => eqb x y && equal_elements a' b'
  | _, _ => false
  end.

Definition vector_eqb {T} `{Element T} (a b : list T) : bool :=
  (size a =? size b) && equal_elements a b.

Section Operators.
Context {T : Type} `{Element T} {k : Kind}.

(** [operator*]: [view.at(idx)]. *)
Definition deref (it : iterator T k) : result T := at_ (view it) (idx it).

(** Prefix [operator++]. *)
Definition incr (it : iterator T k) : iterator T k :=
  Iterator k (view it) (size_t (idx it + 1)).

(** Postfix [operator++]: the iterator afterwards, and the returned copy. *)
Definition post_incr (it : iterator T k) : iterator T k * iterator T k :=
  let tmp := it in (incr it, tmp).

(** [operator==]. *)
Definition iter_eqb (a b : iterator T k) : bool :=
  (idx a =? idx b) && vector_eqb (view a) (view b).

(** [operator!=]. *)
Definition iter_neqb (a b : iterator T k) : bool := negb (iter_eqb a b).

(** The pair every [make] returns: [{X(v, 0), X(v, v.size())}]. *)
Definition range (v : list T) : iterator T k * iterator T k :=
  (Iterator k v 0, Iterator k v (size v)).

End Operators.

(* ------------------------------------------------------------------ *)
(** *** [Order::make], [ReverseOrder::make] *)

Definition Order_make {T} (c : MyContainer.t T) : iterator T Order * iterator T Order :=
  let v := MyContainer.getData c in
  range v.

Definition ReverseOrder_make {T} (c : MyContainer.t T)
  : iterator T ReverseOrder * iterator T ReverseOrder :=
  let v := MyContainer.getData c in
  let v := rev v in
  range v.

(** *** [AscendingOrder::make], [DescendingOrder::make] *)

Definition AscendingOrder_make {T} `{Element T} `{StdSort T} (c : MyContainer.t T)
  : iterator T AscendingOrder * iterator T AscendingOrder :=
  let v := MyContainer.getData c in
  let v := std_sort ltb v in
  range v.

(** [std::greater<T>] calls [operator>]. *)
Definition DescendingOrder_make {T} `{Element T} `{StdSort T} (c : MyContainer.t T)
  : iterator T DescendingOrder * iterator T DescendingOrder :=
  let v := MyContainer.getData c in
  let v := std_sort gtb v in
  range v.

(* ------------------------------------------------------------------ *)
(** *** [SideCrossOrder::make] *)

Record side_cross_state (T : Type) : Type := SideCross {
  sc_seq : list T;
  sc_i : Z;
  sc_j : Z;
  sc_take_low : bool
}.

Arguments SideCross {T} _ _ _ _.

Section SideCrossLoop.
Context {T : Type} (sorted : list T).

Definition side_cross_cond (st : side_cross_state T) : bool :=
  negb (size sorted =? 0) && (sc_i st <=? sc_j st).

Definition side_cross_body (st : side_cross_state T) : result (side_cross_state T) :=
  if sc_take_low st then
    x <- subscript sorted (sc_i st) ;;
    Ok (SideCross (sc_seq st ++ [x]) (size_t (sc_i st + 1)) (sc_j st)
                  (negb (sc_take_low st)))
  else
    x <- subscript sorted (sc_j st) ;;
    Ok (SideCross (sc_seq st ++ [x]) (sc_i st) (size_t (sc_j st - 1))
                  (negb (sc_take_low st))).

Definition side_cross_init : side_cross_state T :=
  SideCross [] 0
            (if negb (size sorted =? 0) then size_t (size sorted - 1) else 0)
            true.

End SideCrossLoop.

Definition SideCrossOrder_make {T} `{Element T} `{StdSort T}
    (fuel : nat) (c : MyContainer.t T)
  : result (iterator T SideCrossOrder * iterator T SideCrossOrder) :=
  let sorted := MyContainer.getData c in
  let sorted := std_sort ltb sorted in
  st <- while fuel (side_cross_cond sorted) (side_cross_body sorted)
              (side_cross_init sorted) ;;
  Ok (range (sc_seq st)).

(* ------------------------------------------------------------------ *)
(** *** [MiddleOutOrder::make] *)

Record middle_out_state (T : Type) : Type := MiddleOut {
  mo_seq : list T;
  mo_left : Z;
  mo_right : Z;
  mo_take_left : bool
}.

Arguments MiddleOut {T} _ _ _ _.

Section MiddleOutLoop.
Context {T : Type} (base : list T).

Let n : Z := size base.

Definition middle_out_cond (st : middle_out_state T) : bool :=
  size (mo_seq st) <? n.

(** The two guarded pushes of the loop body. *)
Definition middle_out_push (st : middle_out_state T) : result (middle_out_state T) :=
  if mo_take_left st && (mo_left st >=? 0) then
    x <- subscript base (size_t (mo_left st)) ;;
    Ok (MiddleOut (mo_seq st ++ [x]) (long (mo_left st - 1)) (mo_right st)
                  (mo_take_left st))
  else if negb (mo_take_left st) && (mo_right st <? long n) then
    x <- subscript base (size_t (mo_right st)) ;;
    Ok (MiddleOut (mo_seq st ++ [x]) (mo_left st) (long (mo_right st + 1))
                  (mo_take_left st))
  else Ok st.

(** The choice of the side for the next round. *)
Definition middle_out_flag (st : middle_out_state T) : middle_out_state T :=
  MiddleOut (mo_seq st) (mo_left st) (mo_right st)
            (if mo_left st <? 0 then false
             else if mo_right st >=? long n then true
             else negb (mo_take_left st)).

Definition middle_out_body (st : middle_out_state T) : result (middle_out_state T) :=
  st' <- middle_out_push st ;;
  Ok (middle_out_flag st').

(** The state on entry to the loop, for [n != 0]. *)
Definition middle_out_init : result (middle_out_state T) :=
  let mid := long (size_t (n - 1) / 2) in
  let left := long (mid - 1) in
  let right := long (mid + 1) in
  x <- subscript base (size_t mid) ;;
  Ok (MiddleOut [x] left right true).

End MiddleOutLoop.

Definition MiddleOutOrder_make {T} (fuel : nat) (c : MyContainer.t T)
  : result (iterator T MiddleOutOrder * iterator T MiddleOutOrder) :=
  let base := MyContainer.getData c in
  let n := size base in
  let seq : list T := [] in
  if n =? 0 then Ok (Iterator MiddleOutOrder seq 0, Iterator MiddleOutOrder seq 0)
  else
    st0 <- middle_out_init base ;;
    st <- while fuel (middle_out_cond base) (middle_out_body base) st0 ;;
    Ok (range (mo_seq st)).

(* ------------------------------------------------------------------ *)
(** *** The twelve entry points of [MyContainer]

    [begin_x()] is the first component of [X::make] on this container and
    [end_x()] the second one: each call builds its own pair. *)

Section EntryPoints.
Context {T : Type} `{Element T} `{StdSort T}.

Definition make (k : Kind) (fuel : nat) (c : MyContainer.t T)
  : result (iterator T k * iterator T k) :=
  match k with
  | Order => Ok (Order_make c)
  | ReverseOrder => Ok (ReverseOrder_make c)
  | AscendingOrder => Ok (AscendingOrder_make c)
  | DescendingOrder => Ok (DescendingOrder_make c)
  | SideCrossOrder => SideCrossOrder_make fuel c
  | MiddleOutOrder => MiddleOutOrder_make fuel c
  end.

Definition begin_ (k : Kind) (fuel : nat) (c : MyContainer.t T) : result (iterator T k) :=
  p <- make k fuel c ;; Ok (fst p).

Definition end_ (k : Kind) (fuel : nat) (c : MyContainer.t T) : result (iterator T k) :=
  p <- make k fuel c ;; Ok (snd p).

Definition begin_order := begin_ Order 0.
Definition end_order := end_ Order 0.
Definition begin_reverse_order := begin_ ReverseOrder 0.
Definition end_reverse_order := end_ ReverseOrder 0.
Definition begin_ascending_order := begin_ AscendingOrder 0.
Definition end_ascending_order := end_ AscendingOrder 0.
Definition begin_descending_order := begin_ DescendingOrder 0.
Definition end_descending_order := end_ DescendingOrder 0.
Definition begin_side_cross_order := begin_ SideCrossOrder.
Definition end_side_cross_order := end_ SideCrossOrder.
Definition begin_middle_out_order := begin_ MiddleOutOrder.
Definition end_middle_out_order := end_ MiddleOutOrder.

End EntryPoints.

(* ================================================================== *)
(** ** The traversal orders as the specification words them *)

(** Alternate between two sequences, the first one leading; when one runs
    out the rest of the other follows. *)
Fixpoint interleave {T} (xs ys : list T) : list T :=
  match xs with
  | [] => ys
  | x :: xs' =>
      x :: match ys with
           | [] => xs'
           | y :: ys' => y :: interleave xs' ys'
           end
  end.

(** Side-cross: take the lowest remaining element, then the highest
    remaining one, and so on until nothing remains ([turns] bounds the number
    of elements taken). *)
Fixpoint side_cross_alt {T} (turns : nat) (low : bool) (m : list T) : list T :=
  match turns with
  | O => []
  | S turns' =>
      if low then
        match m with
        | [] => []
        | x :: r => x :: side_cross_alt turns' false r
        end
      else
        match rev m with
        | [] => []
        | y :: r => y :: side_cross_alt turns' true (rev r)
        end
  end.

Definition side_cross_spec {T} (sorted : list T) : list T :=
  side_cross_alt (length sorted) true sorted.

(** Middle-out: the element at index [(n-1)/2], then the elements to its
    left (nearest first) alternating with those to its right, the left one
    first. *)
Definition middle_out_spec {T} (l : list T) : list T :=
  let mid := ((length l - 1) / 2)%nat in
  match nth_error l mid with
  | None => []
  | Some m => m :: interleave (rev (firstn mid l)) (skipn (S mid) l)
  end.

(* ================================================================== *)
(** ** Two element types of the test suite *)

(** [int]. *)
#[export] Instance Element_int : Element Z := {
  eqb := Z.eqb;
  ltb := Z.ltb;
  gtb := Z.gtb;
  show := fun z => NilZero.string_of_int (Z.to_int z)
}.

(** Moving an [int] copies it. *)
#[export] Instance MoveAssign_int : MoveAssign Z := { moved_from := fun z => z }.

(** [struct Book]: equal when both fields are, ordered by [pages] alone. *)
Record Book : Type := mkBook { title : string; pages : Z }.

#[export] Instance Element_Book : Element Book := {
  eqb := fun a b => String.eqb (title a) (title b) && (pages a =? pages b);
  ltb := fun a b => pages a <? pages b;
  gtb := fun a b => pages a >? pages b;
  show := fun b =>
    (title b ++ " (" ++ NilZero.string_of_int (Z.to_int (pages b)) ++ ")")%string
}.

(** Moving a [Book] moves its [std::string], which is left empty, and
    copies its [int]. *)
#[export] Instance MoveAssign_Book : MoveAssign Book := {
  moved_from := fun b => mkBook EmptyString (pages b)
}.

(** A sort that meets the contract of [std::sort] and keeps equivalent
    elements in input order. *)
Definition insertion_sort {T} (comp : T -> T -> bool) (l : list T) : list T :=
  stable_sort comp l.

(** A sort that meets the contract of [std::sort] and puts equivalent
    elements in the reverse of their input order. *)
Definition backward_sort {T} (comp : T -> T -> bool) (l : list T) : list T :=
  stable_sort comp (rev l).

(** Whether [r] holds the elements of [l], each as many times. *)
Definition perm_check {T} (eq_dec : forall a b : T, {a = b} + {a <> b})
    (l r : list T) : bool :=
  forallb (fun x => (count_occ eq_dec l x =? count_occ eq_dec r x)%nat) (l ++ r).

(** Whether no element of [r] is before an element ahead of it. *)
Fixpoint sorted_check {T} (comp : T -> T -> bool) (r : list T) : bool :=
  match r with
  | [] => true
  | x :: r' => forallb (fun y => negb (comp y x)) r' && sorted_check comp r'
  end.

(** The sort of libstdc++, its result checked at every call: a run that
    ends in a sorted permutation of its input gives the result; for any
    other run the stable sort stands in, so that the contract of
    [std::sort] holds of every call. *)
Definition checked_sort {T} `{MoveAssign T}
    (eq_dec : forall a b : T, {a = b} + {a <> b})
    (comp : T -> T -> bool) (l : list T) : list T :=
  match Libstdcxx.sort comp l with
  | Ok r => if perm_check eq_dec l r && sorted_check comp r then r
            else stable_sort comp l
  | _ => stable_sort comp l
  end.

Definition Book_eq_dec (a b : Book) : {a = b} + {a <> b}.
Proof. decide equality; [apply Z.eq_dec | apply string_dec]. Defined.

(** Seventeen books of one page each, titled [A] to [Q]. *)
Definition seventeen_books : list Book :=
  map (fun t => mkBook t 1)
      ["A"; "B"; "C"; "D"; "E"; "F"; "G"; "H"; "I"; "J"; "K"; "L"; "M"; "N";
       "O"; "P"; "Q"]%string.

(* ================================================================== *)
(** ** Objects in memory

    To speak of what a later mutation of the container can reach, the
    vectors are placed in a store: every [std::vector] object owns one cell.
    The container is the cell of its [data] member; an iterator is the cell
    of its [view] member together with its [idx]. *)

Module Store.

Section Cells.
Context {T : Type}.

Definition heap : Type := list (list T).

(** Copy-construction of a vector: a fresh cell with the given contents. *)
Definition new_vector (h : heap) (v : list T) : heap * nat :=
  (h ++ [v], length h).

Definition load (h : heap) (a : nat) : list T := nth a h [].

Fixpoint store (h : heap) (a : nat) (v : list T) : heap :=
  match h, a with
  | [], _ => []
  | _ :: h', O => v :: h'
  | w :: h', S a' => w :: store h' a' v
  end.

End Cells.

Arguments heap T : clear implicits.

(** An iterator object: where its [view] lives, and its [idx]. *)
Record handle (k : Kind) : Type := Handle { view_at : nat; idx_of : Z }.

Arguments Handle k _ _ : clear implicits.

(** The calls made on a container after the iterators were taken. *)
Inductive mutation (T : Type) : Type :=
| Add (value : T)
| Remove (value : cref T).

Section Program.
Context {T : Type} `{Element T} `{MoveAssign T} `{StdSort T}.

(** The iterator a handle denotes in a given store. *)
Definition iterator_at {k} (h : heap T) (p : handle k) : iterator T k :=
  Iterator k (load h (view_at p)) (idx_of p).

(** [c.addElement(value)] for the container whose [data] is cell [c]. *)
Definition addElement (h : heap T) (c : nat) (value : T) : heap T :=
  store h c (MyContainer.data
               (MyContainer.addElement value (MyContainer.mk (load h c)))).

(** [c.removeElement(value)]; a reference [Inside i] designates element [i]
    of the container's own [data]. *)
Definition removeElement (h : heap T) (c : nat) (value : cref T) : heap T * result unit :=
  let (c', r) := MyContainer.removeElement value (MyContainer.mk (load h c)) in
  (store h c (MyContainer.data c'), r).

(** [X::make(c)]: the sequence is built from the contents of cell [c]
    ([getData] returns a reference to it), and each of the two iterators
    receives its own copy, the constructor taking its vector by value. *)
Definition make (k : Kind) (fuel : nat) (h : heap T) (c : nat)
  : result (heap T * (handle k * handle k)) :=
  p <- make k fuel (MyContainer.mk (load h c)) ;;
  let (h1, a1) := new_vector h (view (fst p)) in
  let (h2, a2) := new_vector h1 (view (snd p)) in
  Ok (h2, (Handle k a1 (idx (fst p)), Handle k a2 (idx (snd p)))).

Definition mutate (c : nat) (h : heap T) (m : mutation T) : heap T :=
  match m with
  | Add value => addElement h c value
  | Remove value => fst (removeElement h c value)
  end.

(** A sequence of [addElement] and [removeElement] calls on container [c];
    a call that throws is caught and the next one follows. *)
Definition mutations (c : nat) (ms : list (mutation T)) (h : heap T) : heap T :=
  fold_left (mutate c) ms h.

End Program.

End Store.

(* ================================================================== *)
(** ** Definitions used in the statements and proofs *)

(** The source position of the [k]-th element taken: counted from the low
    end on a low turn, from the high end on a high turn. *)
Definition side_cross_source (n k : nat) (low : bool) : nat :=
  if Bool.eqb (Nat.even k) low then (k / 2)%nat else (n - 1 - k / 2)%nat.

(** The elements ahead of the first one that equals [v]. *)
Fixpoint unmatched_prefix {T} `{Element T} (v : T) (a : list T) : list T :=
  match a with
  | [] => []
  | x :: a' => if eqb x v then [] else x :: unmatched_prefix v a'
  end.

(** The elements that do not equal [v], in their order. *)
Definition kept {T} `{Element T} (v : T) (a : list T) : list T :=
  filter (fun e => negb (eqb e v)) a.

(** What [removeElement] comes to when its argument is not an element of
    the container: the elements equal to [v] go, and the call throws when
    there was none. *)
Definition remove_value {T} `{Element T} (v : T) (c : MyContainer.t T)
  : MyContainer.t T * result unit :=
  let data' := kept v (MyContainer.data c) in
  if size data' =? size (MyContainer.data c)
  then (MyContainer.mk data', Throw MyContainer.not_found)
  else (MyContainer.mk data', Ok tt).

(** The rest of a middle-out sequence, given which side leads. *)
Definition alternation {T} (take_left : bool) (lefts rights : list T) : list T :=
  if take_left then interleave lefts rights else interleave rights lefts.

(** The sequence each [make] materialises. *)
Definition traversal {T} `{Element T} `{StdSort T} (k : Kind) (l : list T) : list T :=
  match k with
  | Order => l
  | ReverseOrder => rev l
  | AscendingOrder => std_sort ltb l
  | DescendingOrder => std_sort gtb l
  | SideCrossOrder => side_cross_spec (std_sort ltb l)
  | MiddleOutOrder => middle_out_spec l
  end.

(** [a] is [b] with some elements left out, the others in their order. *)
Inductive Subsequence {T} : list T -> list T -> Prop :=
| sub_nil : Subsequence [] []
| sub_keep x a b : Subsequence a b -> Subsequence (x :: a) (x :: b)
| sub_drop x a b : Subsequence a b -> Subsequence a (x :: b).

(** The text the specification describes: each element's representation
    followed by one space, then the line feed. *)
Definition render_spec {T} `{Element T} (l : list T) : string :=
  fold_right (fun e rest => show e ++ " " ++ rest)%string endl l.

(** *** Loop invariants and measures *)

(** Between two rounds: [pre] and [post] have been taken from the two ends,
    [m] is what lies between the cursors [i] and [j]. *)
Definition side_cross_inv {T} (sorted : list T) (st : side_cross_state T) : Prop :=
  exists pre m post,
    sorted = pre ++ m ++ post /\
    sc_i st = size pre /\
    sc_j st = size pre + size m - 1 /\
    (sc_take_low st = false -> pre <> []) /\
    length (sc_seq st) = (length pre + length post)%nat /\
    side_cross_spec sorted
    = sc_seq st ++ side_cross_alt (length m) (sc_take_low st) m.

Definition side_cross_measure {T} (sorted : list T) (st : side_cross_state T) : nat :=
  length sorted - length (sc_seq st).

(** The side the flag selects has no element left. *)
Definition side_exhausted {T} (base : list T) (st : middle_out_state T) : bool :=
  if mo_take_left st then mo_left st <? 0
  else mo_right st >=? long (size base).

(** Between two rounds: [ls] lies left of [mo_left], [rs] from [mo_right]
    on, and [taken] between them has been pushed. *)
Definition middle_out_inv {T} (base : list T) (st : middle_out_state T) : Prop :=
  exists ls taken rs,
    base = ls ++ taken ++ rs /\
    mo_left st = size ls - 1 /\
    mo_right st = size ls + size taken /\
    length (mo_seq st) = length taken /\
    middle_out_spec base
    = mo_seq st ++ alternation (mo_take_left st) (rev ls) rs.

(** Elements still to push, plus one for a round that cannot push. *)
Definition middle_out_measure {T} (base : list T) (st : middle_out_state T) : nat :=
  (length base - length (mo_seq st)
   + (if middle_out_cond base st && side_exhausted base st then 1 else 0))%nat.

(* ------------------------------------------------------------------ *)
(** ** The traversal loop of the test suite

    [tests.cpp] walks every order with the same loop:
    [for (auto it = c.begin_x(); it != c.end_x(); ++it, ++i)
       CHECK(deref it == expected[i]);] followed by
    [CHECK(i == expected.size())]. The end iterator is built anew for every
    test of the loop condition. *)

(** [while] with a condition that can itself fail. *)
Fixpoint while_m {S} (fuel : nat) (cond : S -> result bool)
    (body : S -> result S) (s : S) : result S :=
  b <- cond s ;;
  if b then
    match fuel with
    | O => OutOfFuel
    | Datatypes.S fuel' => s' <- body s ;; while_m fuel' cond body s'
    end
  else Ok s.

Record test_state (T : Type) (k : Kind) : Type := TestState {
  ts_it : iterator T k;
  ts_i : Z;
  ts_checks : list bool
}.

Arguments TestState {T k} _ _ _.
Arguments ts_it {T k} _.
Arguments ts_i {T k} _.
Arguments ts_checks {T k} _.

Section TraversalTest.
Context {T : Type} `{Element T} `{StdSort T}.
Context (k : Kind) (fuel : nat) (c : MyContainer.t T) (expected : list T).

Definition traversal_test_cond (st : test_state T k) : result bool :=
  e <- end_ k fuel c ;; Ok (iter_neqb (ts_it st) e).

Definition traversal_test_body (st : test_state T k) : result (test_state T k) :=
  x <- deref (ts_it st) ;;
  y <- subscript expected (ts_i st) ;;
  Ok (TestState (incr (ts_it st)) (size_t (ts_i st + 1))
                (ts_checks st ++ [eqb x y])).

(** The outcomes of the [CHECK]s, in the order they are made. *)
Definition traversal_test (rounds : nat) : result (list bool) :=
  b <- begin_ k fuel c ;;
  st <- while_m rounds traversal_test_cond traversal_test_body (TestState b 0 []) ;;
  Ok (ts_checks st ++ [ts_i st =? size expected]).

End TraversalTest.

(** The [CHECK]s of the element comparisons, for a given expectation. *)
Definition element_checks {T} `{Element T} (v expected : list T) : list bool :=
  map (fun p => eqb (fst p) (snd p)) (combine v expected).

(** The position in the insertion order of the [k]-th element of the
    middle-out sequence of [n] elements. *)
Definition middle_out_source (n k : nat) : nat :=
  let mid := ((n - 1) / 2)%nat in
  if (k =? 0)%nat then mid
  else if (k <=? 2 * mid)%nat then
    if Nat.even k then (mid + k / 2)%nat else (mid - (k + 1) / 2)%nat
  else k.

(** [addElement] for each value of [vs] in turn. *)
Definition add_all {T} (vs : list T) (c : MyContainer.t T) : MyContainer.t T :=
  fold_left (fun c v => MyContainer.addElement v c) vs c.

(* ================================================================== *)
(** * Properties *)

(** ** Machine integers and outcomes *)

Lemma size_t_small (z : Z) : 0 <= z < 2 ^ 64 -> size_t z = z.
Proof. intros Hz. unfold size_t, SIZE_MAX_plus_1. now apply Z.mod_small. Qed.

Lemma long_small (z : Z) : - 2 ^ 63 <= z < 2 ^ 63 -> long z = z.
Proof.
  intros Hz. unfold long, SIZE_MAX_plus_1.
  rewrite Z.mod_small; lia.
Qed.

Lemma size_nonneg {T} (v : list T) : 0 <= size v.
Proof. unfold size. lia. Qed.

Lemma size_app {T} (a b : list T) : size (a ++ b) = size a + size b.
Proof. unfold size. rewrite length_app. lia. Qed.

Lemma subscript_middle {T} (pre post : list T) (x : T) :
  subscript (pre ++ x :: post) (size pre) = Ok x.
Proof.
  unfold subscript, size. rewrite length_app. cbn [length].
  destruct (Z.leb_spec 0 (Z.of_nat (length pre))); [|lia].
  destruct (Z.ltb_spec (Z.of_nat (length pre))
                       (Z.of_nat (length pre + S (length post)))); [|lia].
  cbn [andb]. rewrite Nat2Z.id.
  rewrite nth_error_app2 by lia. now rewrite Nat.sub_diag.
Qed.

(** Total correctness of a [while] loop: an invariant kept by the body and
    a measure that the body decreases give a final state, reached within as
    many rounds as the measure counts. *)
Lemma while_total {S} (Inv : S -> Prop) (measure : S -> nat)
    (cond : S -> bool) (body : S -> result S) :
  (forall s, Inv s -> cond s = true ->
     exists s', body s = Ok s' /\ Inv s' /\ (measure s' < measure s)%nat) ->
  forall fuel s, Inv s -> (measure s <= fuel)%nat ->
    exists s', while fuel cond body s = Ok s' /\ Inv s' /\ cond s' = false.
Proof.
  intros Hstep fuel. induction fuel as [|fuel IH]; intros s Hinv Hfuel.
  - cbn. destruct (cond s) eqn:Hc.
    + destruct (Hstep s Hinv Hc) as (s' & _ & _ & Hlt). lia.
    + now exists s.
  - cbn. destruct (cond s) eqn:Hc.
    + destruct (Hstep s Hinv Hc) as (s' & Hb & Hinv' & Hlt).
      rewrite Hb. cbn. apply IH; [assumption | lia].
    + now exists s.
Qed.

Lemma iterate_invariant {S} (Inv : S -> Prop) (body : S -> result S) :
  (forall s, Inv s -> exists s', body s = Ok s' /\ Inv s') ->
  forall k s s', Inv s -> iterate k body s = Ok s' -> Inv s'.
Proof.
  intros Hstep k. induction k as [|k IH]; intros s s' Hinv Hk.
  - cbn in Hk. now inversion Hk; subst.
  - cbn in Hk. destruct (Hstep s Hinv) as (s1 & Hb & Hinv1).
    rewrite Hb in Hk. cbn in Hk. eapply IH; eassumption.
Qed.

(** A list is empty or ends with an element. *)
Lemma last_cases {T} (l : list T) : l = [] \/ exists l' x, l = l' ++ [x].
Proof.
  destruct l as [|a l] using rev_ind; [now left | right; eauto].
Qed.

(* ------------------------------------------------------------------ *)
(** ** [interleave] *)

Lemma interleave_nil_r {T} (xs : list T) : interleave xs [] = xs.
Proof. now destruct xs. Qed.

Lemma interleave_cons {T} (xs ys : list T) (x : T) :
  interleave (x :: xs) ys = x :: interleave ys xs.
Proof.
  revert ys x. induction xs as [|x' xs IH]; intros ys x.
  - destruct ys as [|y ys]; cbn; [reflexivity|]. now destruct ys.
  - destruct ys as [|y ys]; [reflexivity|].
    cbn [interleave]. do 2 f_equal.
    specialize (IH ys x'). cbn [interleave] in IH.
    destruct ys as [|y' ys']; [reflexivity|].
    now inversion IH.
Qed.

Lemma interleave_perm {T} (xs ys : list T) :
  Permutation (xs ++ ys) (interleave xs ys).
Proof.
  revert ys. induction xs as [|x xs IH]; intros ys; [reflexivity|].
  destruct ys as [|y ys]; cbn [interleave].
  - now rewrite app_nil_r.
  - cbn [app]. constructor.
    etransitivity; [symmetry; apply Permutation_middle|].
    constructor. apply IH.
Qed.

Lemma alternation_one_sided {T} (b b' : bool) (lefts rights : list T) :
  lefts = [] \/ rights = [] ->
  alternation b lefts rights = alternation b' lefts rights.
Proof.
  intros [-> | ->]; destruct b, b'; cbn; now rewrite ?interleave_nil_r.
Qed.

(* ------------------------------------------------------------------ *)
(** ** Sorting *)

Section Sorting.
Context {T : Type} (comp : T -> T -> bool) {SWO : StrictWeakOrder comp}.

Lemma swo_asym (a b : T) : comp a b = true -> comp b a = false.
Proof.
  intros Hab. destruct (comp b a) eqn:Hba; [|reflexivity].
  pose proof (swo_trans _ _ _ Hab Hba) as Haa.
  now rewrite swo_irrefl in Haa.
Qed.

Lemma not_after_trans (a b c : T) :
  not_after comp a b -> not_after comp b c -> not_after comp a c.
Proof.
  unfold not_after. intros Hba Hcb.
  destruct (comp c a) eqn:Hca; [|reflexivity].
  destruct (comp a b) eqn:Hab.
  - pose proof (swo_trans _ _ _ Hca Hab). congruence.
  - destruct (comp b c) eqn:Hbc.
    + pose proof (swo_trans _ _ _ Hbc Hca). congruence.
    + destruct (swo_equiv_trans a b c Hab Hba Hbc Hcb). congruence.
Qed.

Lemma stable_insert_perm (x : T) (l : list T) :
  Permutation (x :: l) (stable_insert comp x l).
Proof.
  induction l as [|y r IH]; cbn; [reflexivity|].
  destruct (comp y x); [|reflexivity].
  etransitivity; [apply perm_swap|]. now constructor.
Qed.

Lemma stable_insert_sorted (x : T) (l : list T) :
  StronglySorted (not_after comp) l ->
  StronglySorted (not_after comp) (stable_insert comp x l).
Proof.
  induction 1 as [|y r Hr IH Hy]; cbn.
  - repeat constructor.
  - destruct (comp y x) eqn:Hyx.
    + constructor; [assumption|].
      eapply Permutation_Forall; [apply stable_insert_perm|].
      constructor; [|assumption].
      unfold not_after. now apply swo_asym.
    + constructor; [now constructor|].
      constructor; [exact Hyx|].
      eapply Forall_impl; [|exact Hy].
      intros z Hz. eapply not_after_trans; [exact Hyx | exact Hz].
Qed.

Lemma stable_sort_perm (l : list T) : Permutation l (stable_sort comp l).
Proof.
  induction l as [|x l IH]; cbn; [reflexivity|].
  etransitivity; [|apply stable_insert_perm]. now constructor.
Qed.

Lemma stable_sort_sorted (l : list T) :
  StronglySorted (not_after comp) (stable_sort comp l).
Proof.
  induction l as [|x l IH]; cbn; [constructor|].
  now apply stable_insert_sorted.
Qed.

Lemma stable_insert_equivalent (z x : T) (l : list T) :
  filter (equivalent comp z) (stable_insert comp x l)
  = filter (equivalent comp z) (x :: l).
Proof.
  induction l as [|y r IH]; [reflexivity|].
  cbn [stable_insert]. destruct (comp y x) eqn:Hyx; [|reflexivity].
  cbn [filter] in *. rewrite IH.
  destruct (equivalent comp z x) eqn:Hzx; [|reflexivity].
  destruct (equivalent comp z y) eqn:Hzy; [|reflexivity].
  exfalso. unfold equivalent in Hzx, Hzy.
  apply andb_true_iff in Hzx as [H1 H2], Hzy as [H3 H4].
  apply negb_true_iff in H1, H2, H3, H4.
  destruct (swo_equiv_trans y z x H4 H3 H1 H2) as [Hyx' _]. congruence.
Qed.

(** [stable_sort] is stable: the elements equivalent to any given one come
    out in the order they went in. *)
Lemma stable_sort_stable (z : T) (l : list T) :
  filter (equivalent comp z) (stable_sort comp l)
  = filter (equivalent comp z) l.
Proof.
  induction l as [|x l IH]; [reflexivity|].
  cbn [stable_sort fold_right]. fold (stable_sort comp l).
  rewrite stable_insert_equivalent. cbn [filter]. now rewrite IH.
Qed.

End Sorting.

(** Where equivalent elements are equal, a range has one sorted
    arrangement. *)
Lemma sorted_unique {T} (comp : T -> T -> bool) :
  (forall a b, comp a b = false -> comp b a = false -> a = b) ->
  forall l1 l2 : list T,
    StronglySorted (not_after comp) l1 ->
    StronglySorted (not_after comp) l2 ->
    Permutation l1 l2 -> l1 = l2.
Proof.
  intros Hanti l1. induction l1 as [|a l1 IH]; intros l2 H1 H2 Hp.
  - now apply Permutation_nil in Hp.
  - destruct l2 as [|b l2].
    + symmetry in Hp. now apply Permutation_nil in Hp.
    + inversion H1 as [|? ? H1' Ha]; subst.
      inversion H2 as [|? ? H2' Hb]; subst.
      assert (a = b) as ->.
      { assert (In a (b :: l2)) as Hin1
            by (eapply Permutation_in; [exact Hp | now left]).
        assert (In b (a :: l1)) as Hin2
            by (eapply Permutation_in; [symmetry; exact Hp | now left]).
        destruct Hin1 as [Heq | Hin1]; [now symmetry|].
        destruct Hin2 as [Heq | Hin2]; [assumption|].
        rewrite Forall_forall in Ha, Hb.
        apply Hanti; [apply (Hb a Hin1) | apply (Ha b Hin2)]. }
      f_equal. apply IH; try assumption.
      eapply Permutation_cons_inv; exact Hp.
Qed.

(** An order read off an integer key is a strict weak ordering. *)
Lemma key_order_swo {T} (key : T -> Z) :
  StrictWeakOrder (fun a b => key a <? key b).
Proof.
  split.
  - intros a. apply Z.ltb_irrefl.
  - intros a b c H1 H2. apply Z.ltb_lt in H1, H2. apply Z.ltb_lt. lia.
  - intros a b c H1 H2 H3 H4. apply Z.ltb_ge in H1, H2, H3, H4.
    split; apply Z.ltb_ge; lia.
Qed.

Lemma key_order_swo_gt {T} (key : T -> Z) :
  StrictWeakOrder (fun a b => key a >? key b).
Proof.
  split.
  - intros a. rewrite Z.gtb_ltb. apply Z.ltb_irrefl.
  - intros a b c. rewrite !Z.gtb_ltb. intros H1 H2.
    apply Z.ltb_lt in H1, H2. apply Z.ltb_lt. lia.
  - intros a b c. rewrite !Z.gtb_ltb. intros H1 H2 H3 H4.
    apply Z.ltb_ge in H1, H2, H3, H4. split; apply Z.ltb_ge; lia.
Qed.

#[export] Instance int_lt_swo : StrictWeakOrder (@ltb Z _) := key_order_swo (fun z => z).
#[export] Instance int_gt_swo : StrictWeakOrder (@gtb Z _) := key_order_swo_gt (fun z => z).
#[export] Instance Book_lt_swo : StrictWeakOrder (@ltb Book _) := key_order_swo pages.
#[export] Instance Book_gt_swo : StrictWeakOrder (@gtb Book _) := key_order_swo_gt pages.

(** The two sorts meet the contract of [std::sort]. *)
#[export] Instance StdSort_insertion {T} : StdSort T := {
  std_sort := insertion_sort;
  std_sort_perm := fun comp l _ => stable_sort_perm comp l;
  std_sort_sorted := fun comp l SWO => @stable_sort_sorted T comp SWO l
}.

Lemma backward_sort_perm {T} (comp : T -> T -> bool) (l : list T) :
  StrictWeakOrder comp -> Permutation l (backward_sort comp l).
Proof.
  intros _. unfold backward_sort.
  etransitivity; [apply Permutation_rev | apply stable_sort_perm].
Qed.

Definition StdSort_backward {T} : StdSort T := {|
  std_sort := backward_sort;
  std_sort_perm := @backward_sort_perm T;
  std_sort_sorted := fun comp l SWO => @stable_sort_sorted T comp SWO (rev l)
|}.

Lemma perm_check_sound {T} (eq_dec : forall a b : T, {a = b} + {a <> b})
    (l r : list T) :
  perm_check eq_dec l r = true -> Permutation l r.
Proof.
  unfold perm_check. intros Hc. apply (Permutation_count_occ eq_dec).
  intros x. destruct (in_dec eq_dec x (l ++ r)) as [Hin | Hout].
  - rewrite forallb_forall in Hc. now apply Nat.eqb_eq, Hc.
  - rewrite in_app_iff in Hout.
    rewrite (proj1 (count_occ_not_In eq_dec l x)) by tauto.
    rewrite (proj1 (count_occ_not_In eq_dec r x)) by tauto.
    reflexivity.
Qed.

Lemma sorted_check_sound {T} (comp : T -> T -> bool) (r : list T) :
  sorted_check comp r = true -> StronglySorted (not_after comp) r.
Proof.
  induction r as [|x r IH]; cbn [sorted_check]; intros Hc; [constructor|].
  apply andb_true_iff in Hc as [Hx Hr]. constructor; [now apply IH|].
  apply Forall_forall. intros y Hy. rewrite forallb_forall in Hx.
  unfold not_after. now apply negb_true_iff, Hx.
Qed.

Lemma checked_sort_perm {T} `{MoveAssign T}
    (eq_dec : forall a b : T, {a = b} + {a <> b})
    (comp : T -> T -> bool) (l : list T) :
  StrictWeakOrder comp -> Permutation l (checked_sort eq_dec comp l).
Proof.
  intros _. unfold checked_sort.
  destruct (Libstdcxx.sort comp l) as [r| | |]; try apply stable_sort_perm.
  destruct (perm_check eq_dec l r) eqn:Hp; cbn [andb];
    [|apply stable_sort_perm].
  destruct (sorted_check comp r); [|apply stable_sort_perm].
  now apply perm_check_sound with eq_dec.
Qed.

Lemma checked_sort_sorted {T} `{MoveAssign T}
    (eq_dec : forall a b : T, {a = b} + {a <> b})
    (comp : T -> T -> bool) (l : list T) :
  StrictWeakOrder comp ->
  StronglySorted (not_after comp) (checked_sort eq_dec comp l).
Proof.
  intros SWO. unfold checked_sort.
  destruct (Libstdcxx.sort comp l) as [r| | |];
    try apply (@stable_sort_sorted T comp SWO).
  destruct (perm_check eq_dec l r); cbn [andb];
    [|apply (@stable_sort_sorted T comp SWO)].
  destruct (sorted_check comp r) eqn:Hs;
    [|apply (@stable_sort_sorted T comp SWO)].
  now apply sorted_check_sound.
Qed.

(** [std::sort] as libstdc++ runs it meets the contract. *)
Definition StdSort_libstdcxx {T} `{MoveAssign T}
    (eq_dec : forall a b : T, {a = b} + {a <> b}) : StdSort T := {|
  std_sort := checked_sort eq_dec;
  std_sort_perm := checked_sort_perm eq_dec;
  std_sort_sorted := checked_sort_sorted eq_dec
|}.

(* ------------------------------------------------------------------ *)
(** ** The side-cross loop *)

Lemma side_cross_alt_high {T} (m : list T) (y : T) :
  side_cross_alt (length (m ++ [y])) false (m ++ [y])
  = y :: side_cross_alt (length m) true m.
Proof.
  rewrite length_app, Nat.add_1_r. cbn [side_cross_alt].
  rewrite rev_unit, rev_involutive. reflexivity.
Qed.

Lemma side_cross_alt_perm {T} (turns : nat) :
  forall (low : bool) (m : list T),
    (length m <= turns)%nat -> Permutation m (side_cross_alt turns low m).
Proof.
  induction turns as [|turns IH]; intros low m Hlen.
  - destruct m; [constructor | cbn in Hlen; lia].
  - destruct low.
    + destruct m as [|x r]; cbn; [constructor|].
      constructor. apply IH. cbn in Hlen. lia.
    + destruct (last_cases m) as [-> | (m' & y & ->)]; [constructor|].
      cbn [side_cross_alt]. rewrite rev_unit, rev_involutive.
      etransitivity; [symmetry; apply Permutation_cons_append|].
      constructor. apply IH. rewrite length_app in Hlen. cbn in Hlen. lia.
Qed.

Lemma side_cross_spec_perm {T} (sorted : list T) :
  Permutation sorted (side_cross_spec sorted).
Proof. apply side_cross_alt_perm. lia. Qed.

Section SideCrossProof.
Context {T : Type} (sorted : list T).
Hypothesis sorted_fits : fits sorted.

Lemma side_cross_step (st : side_cross_state T) :
  side_cross_inv sorted st -> side_cross_cond sorted st = true ->
  exists st', side_cross_body sorted st = Ok st' /\ side_cross_inv sorted st' /\
              (side_cross_measure sorted st' < side_cross_measure sorted st)%nat.
Proof.
  intros (pre & m & post & Hs & Hi & Hj & Hlow & Hlen & Hspec) Hcond.
  unfold side_cross_cond in Hcond. apply andb_true_iff in Hcond as [_ Hij].
  apply Z.leb_le in Hij.
  assert (Hn : size sorted = size pre + size m + size post)
    by (rewrite Hs, !size_app; lia).
  pose proof (size_nonneg pre) as Hp0. pose proof (size_nonneg post) as Hq0.
  unfold fits, max_size in sorted_fits.
  destruct st as [seq i j take_low]; cbn [sc_seq sc_i sc_j sc_take_low] in *.
  unfold side_cross_body, side_cross_measure; cbn [sc_seq sc_i sc_j sc_take_low].
  destruct take_low.
  - destruct m as [|x m']; [unfold size in *; cbn in *; lia|].
    assert (Hx : subscript sorted i = Ok x)
      by (rewrite Hi, Hs; apply subscript_middle).
    rewrite Hx. cbn [bind].
    eexists; split; [reflexivity|]. split.
    + exists (pre ++ [x]), m', post. cbn [sc_seq sc_i sc_j sc_take_low negb].
      unfold size in *. cbn [length] in *. rewrite ?length_app in *. cbn [length] in *.
      repeat split.
      * rewrite Hs, <- app_assoc. reflexivity.
      * rewrite size_t_small; lia.
      * lia.
      * intros _ E. now apply app_eq_nil in E as [_ E].
      * lia.
      * rewrite Hspec. cbn [side_cross_alt]. now rewrite <- app_assoc.
    + cbn [sc_seq]. rewrite length_app. cbn [length].
      rewrite Hs, !length_app. cbn [length]. lia.
  - destruct (last_cases m) as [-> | (m' & y & ->)];
      [unfold size in *; cbn in *; lia|].
    assert (Hpre : pre <> []) by now apply Hlow.
    rewrite side_cross_alt_high in Hspec.
    assert (1 <= size pre)
      by (destruct pre; [congruence | unfold size; cbn [length]; lia]).
    assert (Hy : subscript sorted j = Ok y).
    { replace j with (size (pre ++ m'))
        by (rewrite Hj, !size_app; unfold size; cbn [length]; lia).
      rewrite Hs.
      replace (pre ++ (m' ++ [y]) ++ post) with ((pre ++ m') ++ y :: post)
        by (rewrite <- !app_assoc; reflexivity).
      apply subscript_middle. }
    rewrite Hy. cbn [bind].
    eexists; split; [reflexivity|]. split.
    + exists pre, m', (y :: post). cbn [sc_seq sc_i sc_j sc_take_low negb].
      rewrite !size_app in *. unfold size in *. cbn [length] in *.
      rewrite ?length_app in *. cbn [length] in *.
      repeat split.
      * rewrite Hs, <- !app_assoc. reflexivity.
      * assumption.
      * rewrite size_t_small; lia.
      * discriminate.
      * lia.
      * rewrite Hspec. now rewrite <- app_assoc.
    + cbn [sc_seq]. rewrite length_app. cbn [length].
      rewrite Hs, !length_app. cbn [length]. rewrite ?length_app in Hlen. lia.
Qed.

Lemma side_cross_init_inv : sorted <> [] -> side_cross_inv sorted (side_cross_init sorted).
Proof.
  intros Hne. exists [], sorted, [].
  unfold side_cross_init; cbn [sc_seq sc_i sc_j sc_take_low].
  assert (1 <= size sorted)
    by (destruct sorted; [congruence | unfold size; cbn [length]; lia]).
  unfold fits, max_size in sorted_fits.
  destruct (Z.eqb_spec (size sorted) 0); [lia|]. cbn [negb].
  split; [now rewrite app_nil_r|].
  split; [reflexivity|].
  split; [rewrite size_t_small; [change (size (@nil T)) with 0|]; lia|].
  split; [discriminate|].
  split; reflexivity.
Qed.

(** The loop ends, within [size sorted] rounds, on the side-cross
    sequence. *)
Lemma side_cross_loop (fuel : nat) :
  (length sorted <= fuel)%nat ->
  exists st,
    while fuel (side_cross_cond sorted) (side_cross_body sorted)
          (side_cross_init sorted) = Ok st /\
    sc_seq st = side_cross_spec sorted.
Proof.
  intros Hfuel.
  assert (Hcase : sorted = [] \/ sorted <> [])
    by (destruct sorted; [now left | right; discriminate]).
  destruct Hcase as [Hnil | Hne].
  - exists (side_cross_init sorted). rewrite Hnil.
    split; [now destruct fuel | reflexivity].
  - destruct (@while_total _ (side_cross_inv sorted) (side_cross_measure sorted)
                (side_cross_cond sorted) (side_cross_body sorted)
                side_cross_step fuel (side_cross_init sorted))
      as (st & Hw & (pre & m & post & Hs & Hi & Hj & _ & _ & Hspec) & Hcond).
    + now apply side_cross_init_inv.
    + unfold side_cross_measure. lia.
    + exists st. split; [exact Hw|].
      unfold side_cross_cond in Hcond.
      assert (size sorted <> 0)
        by (destruct sorted; [congruence | unfold size; cbn [length]; lia]).
      destruct (Z.eqb_spec (size sorted) 0); [lia|]. cbn [negb andb] in Hcond.
      apply Z.leb_gt in Hcond.
      destruct m; [|unfold size in *; cbn [length] in *; lia].
      rewrite Hspec. cbn. now rewrite app_nil_r.
Qed.

End SideCrossProof.

(* ------------------------------------------------------------------ *)
(** ** The middle-out loop *)

Ltac sizes :=
  unfold size in *; rewrite ?length_app in *; cbn [length] in *.

(** Decide every integer comparison of the goal. *)
Ltac compare_cases :=
  repeat (match goal with
          | |- context [Z.ltb ?a ?b] => destruct (Z.ltb_spec a b)
          | |- context [Z.geb ?a ?b] => destruct (Z.geb_spec a b)
          end; cbn [andb negb]).

(** The measure and the flag after one round, once the comparisons are
    decided. *)
Ltac round_done :=
  sizes; compare_cases;
  first [ exfalso; lia
        | split;
          [ lia
          | let E := fresh "E" in
            intros E;
            first [ split; reflexivity
                  | exfalso; apply (f_equal (@length _)) in E;
                    rewrite length_app in E; cbn [length] in E; lia ] ] ].

Section MiddleOutProof.
Context {T : Type} (base : list T).
Hypothesis base_fits : fits base.

Lemma long_size_base : long (size base) = size base.
Proof.
  apply long_small. unfold fits, max_size in base_fits.
  pose proof (size_nonneg base). lia.
Qed.

Lemma middle_out_step (st : middle_out_state T) :
  middle_out_inv base st ->
  exists st',
    middle_out_body base st = Ok st' /\ middle_out_inv base st' /\
    (middle_out_cond base st = true ->
     (middle_out_measure base st' < middle_out_measure base st)%nat /\
     (mo_seq st' = mo_seq st ->
      side_exhausted base st = true /\ side_exhausted base st' = false)).
Proof.
  intros (ls & taken & rs & Hb & Hl & Hr & Hlen & Hspec).
  assert (Hn : size base = size ls + size taken + size rs)
    by (rewrite Hb, !size_app; lia).
  assert (Hnl : length base = (length ls + length taken + length rs)%nat)
    by (rewrite Hb, !length_app; lia).
  pose proof long_size_base as Hlong.
  unfold fits, max_size in base_fits.
  destruct st as [seq left right take_left].
  unfold middle_out_body, middle_out_push, middle_out_flag, middle_out_measure,
    middle_out_cond, side_exhausted.
  cbn [mo_seq mo_left mo_right mo_take_left] in *.
  rewrite !Hlong.
  destruct take_left; cbn [andb negb].
  - destruct (last_cases ls) as [-> | (ls' & x & ->)].
    + (* nothing on the left: the round pushes nothing *)
      change (size (@nil T)) with 0 in *.
      destruct (Z.geb_spec left 0); [lia|]. cbn [bind].
      destruct (Z.ltb_spec left 0); [|lia].
      eexists; split; [reflexivity|]. split.
      * exists [], taken, rs. cbn [mo_seq mo_left mo_right mo_take_left].
        repeat (split; [assumption|]).
        rewrite Hspec. f_equal. apply alternation_one_sided. now left.
      * cbn [mo_seq mo_left mo_right mo_take_left]. intros Hc.
        apply Z.ltb_lt in Hc. round_done.
    + (* push the nearest element on the left *)
      assert (Hleft : left = size ls') by (rewrite Hl, size_app; sizes; lia).
      pose proof (size_nonneg ls') as Hls'.
      destruct (Z.geb_spec left 0); [|lia].
      assert (Hx : subscript base (size_t left) = Ok x).
      { rewrite size_t_small by (sizes; lia). rewrite Hleft, Hb, <- app_assoc.
        apply subscript_middle. }
      rewrite Hx. cbn [bind mo_seq mo_left mo_right mo_take_left].
      rewrite (@long_small (left - 1)) by (sizes; lia).
      assert (Hspec' : middle_out_spec base
                       = (seq ++ [x]) ++ alternation false (rev ls') rs).
      { rewrite Hspec, rev_unit. cbn [alternation].
        rewrite interleave_cons, <- app_assoc. reflexivity. }
      eexists; split; [reflexivity|]. split.
      * exists ls', (x :: taken), rs. cbn [mo_seq mo_left mo_right mo_take_left].
        split; [rewrite Hb, <- app_assoc; reflexivity|].
        split; [lia|].
        split; [rewrite Hr, size_app; sizes; lia|].
        split; [rewrite length_app; cbn [length]; lia|].
        rewrite Hspec'. f_equal.
        destruct (Z.ltb_spec (left - 1) 0); [reflexivity|].
        destruct (Z.geb_spec right (size base)); [|reflexivity].
        apply alternation_one_sided. right.
        destruct rs; [reflexivity | sizes; lia].
      * cbn [mo_seq mo_left mo_right mo_take_left]. intros Hc.
        apply Z.ltb_lt in Hc. round_done.
  - destruct rs as [|y rs'].
    + (* nothing on the right: the round pushes nothing *)
      change (size (@nil T)) with 0 in *.
      destruct (Z.ltb_spec right (size base)); [lia|]. cbn [bind].
      eexists; split; [reflexivity|]. split.
      * exists ls, taken, []. cbn [mo_seq mo_left mo_right mo_take_left].
        repeat (split; [assumption|]).
        rewrite Hspec. f_equal. apply alternation_one_sided. now right.
      * cbn [mo_seq mo_left mo_right mo_take_left]. intros Hc.
        apply Z.ltb_lt in Hc. round_done.
    + (* push the nearest element on the right *)
      assert (Hright : right = size (ls ++ taken)) by (rewrite Hr, size_app; lia).
      pose proof (size_nonneg (ls ++ taken)) as Hlt'.
      pose proof (size_nonneg ls) as Hls.
      destruct (Z.ltb_spec right (size base)); [|sizes; lia].
      assert (Hy : subscript base (size_t right) = Ok y).
      { rewrite size_t_small by (sizes; lia). rewrite Hright, Hb, app_assoc.
        apply subscript_middle. }
      rewrite Hy. cbn [bind mo_seq mo_left mo_right mo_take_left].
      rewrite (@long_small (right + 1)) by (sizes; lia).
      assert (Hspec' : middle_out_spec base
                       = (seq ++ [y]) ++ alternation true (rev ls) rs').
      { rewrite Hspec. cbn [alternation].
        rewrite interleave_cons, <- app_assoc. reflexivity. }
      eexists; split; [reflexivity|]. split.
      * exists ls, (taken ++ [y]), rs'. cbn [mo_seq mo_left mo_right mo_take_left].
        split; [rewrite Hb, <- !app_assoc; reflexivity|].
        split; [lia|].
        split; [rewrite Hr, size_app; sizes; lia|].
        split; [rewrite !length_app; cbn [length]; lia|].
        rewrite Hspec'. f_equal.
        destruct (Z.ltb_spec left 0); [|now destruct (right + 1 >=? size base)].
        apply alternation_one_sided. left.
        destruct ls; [reflexivity | sizes; lia].
      * cbn [mo_seq mo_left mo_right mo_take_left]. intros Hc.
        apply Z.ltb_lt in Hc. round_done.
Qed.

Lemma middle_out_spec_split :
  base <> [] ->
  exists l1 x l2,
    base = l1 ++ x :: l2 /\
    length l1 = ((length base - 1) / 2)%nat /\
    middle_out_spec base = x :: interleave (rev l1) l2.
Proof.
  intros Hne. unfold middle_out_spec.
  set (mid := ((length base - 1) / 2)%nat).
  assert (Hmid : (mid < length base)%nat).
  { assert (length base <> 0)%nat
      by (intros E; apply length_zero_iff_nil in E; congruence).
    subst mid. apply Nat.Div0.div_lt_upper_bound. lia. }
  destruct (nth_error base mid) as [x|] eqn:Hx;
    [|apply nth_error_None in Hx; lia].
  destruct (nth_error_split _ _ Hx) as (l1 & l2 & Hb & Hl1).
  exists l1, x, l2. split; [exact Hb|]. split; [exact Hl1|].
  rewrite Hb at 1 2. rewrite <- Hl1.
  rewrite firstn_app, Nat.sub_diag, firstn_all. cbn [firstn].
  rewrite app_nil_r.
  replace (l1 ++ x :: l2) with ((l1 ++ [x]) ++ l2)
    by (rewrite <- app_assoc; reflexivity).
  replace (S (length l1)) with (length (l1 ++ [x]))
    by (rewrite length_app; cbn [length]; lia).
  rewrite skipn_app, Nat.sub_diag, skipn_all. reflexivity.
Qed.

Lemma middle_out_init_inv :
  base <> [] ->
  exists st0, middle_out_init base = Ok st0 /\ middle_out_inv base st0 /\
              mo_seq st0 = firstn 1 (middle_out_spec base) /\
              (middle_out_measure base st0 <= length base)%nat.
Proof.
  intros Hne.
  destruct (middle_out_spec_split Hne) as (l1 & x & l2 & Hb & Hl1 & Hspec).
  assert (Hlen : (1 <= length base)%nat)
    by (destruct base; [congruence | cbn [length]; lia]).
  unfold fits, max_size in base_fits.
  assert (Hmid : (size base - 1) / 2 = size l1).
  { unfold size. rewrite Hl1, Nat2Z.inj_div, Nat2Z.inj_sub by lia. reflexivity. }
  assert (Hn : size base = size l1 + 1 + size l2)
    by (rewrite Hb at 1; rewrite size_app; sizes; lia).
  pose proof (size_nonneg l1). pose proof (size_nonneg l2).
  unfold middle_out_init.
  rewrite (@size_t_small (size base - 1)) by lia.
  rewrite Hmid.
  rewrite (@long_small (size l1)) by lia.
  rewrite (@size_t_small (size l1)) by lia.
  rewrite !long_small by lia.
  assert (Hx : subscript base (size l1) = Ok x)
    by (rewrite Hb at 1; apply subscript_middle).
  rewrite Hx. cbn [bind].
  eexists; split; [reflexivity|]. split; [|split].
  - exists l1, [x], l2. cbn [mo_seq mo_left mo_right mo_take_left].
    split; [exact Hb|]. split; [reflexivity|]. split; [reflexivity|].
    split; [reflexivity|]. rewrite Hspec. reflexivity.
  - rewrite Hspec. reflexivity.
  - unfold middle_out_measure. cbn [mo_seq length].
    destruct (_ && _); lia.
Qed.

(** The loop ends, within [size base] rounds, on the middle-out
    sequence. *)
Lemma middle_out_loop (fuel : nat) :
  base <> [] -> (length base <= fuel)%nat ->
  exists st0 st,
    middle_out_init base = Ok st0 /\
    while fuel (middle_out_cond base) (middle_out_body base) st0 = Ok st /\
    mo_seq st = middle_out_spec base.
Proof.
  intros Hne Hfuel.
  destruct (middle_out_init_inv Hne) as (st0 & Hinit & Hinv0 & _ & Hm0).
  destruct (@while_total _ (middle_out_inv base) (middle_out_measure base)
              (middle_out_cond base) (middle_out_body base)) with
      (fuel := fuel) (s := st0)
    as (st & Hw & (ls & taken & rs & Hb & _ & _ & Hlen & Hspec) & Hcond).
  - intros s Hs Hc. destruct (middle_out_step Hs) as (s' & Hbody & Hs' & Hdec).
    exists s'. split; [exact Hbody|]. split; [exact Hs'|]. now apply Hdec.
  - exact Hinv0.
  - lia.
  - exists st0, st. split; [exact Hinit|]. split; [exact Hw|].
    unfold middle_out_cond in Hcond. apply Z.ltb_ge in Hcond.
    assert (Hn : length base = (length ls + length taken + length rs)%nat)
      by (rewrite Hb at 1; rewrite !length_app; lia).
    unfold size in Hcond.
    destruct ls; [|cbn [length] in Hn; lia].
    destruct rs; [|cbn [length] in Hn; lia].
    rewrite Hspec. destruct (mo_take_left st); cbn; now rewrite app_nil_r.
Qed.

End MiddleOutProof.

Lemma middle_out_spec_perm {T} (l : list T) :
  Permutation l (middle_out_spec l).
Proof.
  destruct l as [|a l']; [constructor|].
  assert (Hne : a :: l' <> []) by discriminate.
  destruct (middle_out_spec_split Hne) as (l1 & x & l2 & Hb & _ & Hspec).
  rewrite Hspec. rewrite Hb at 1.
  etransitivity; [symmetry; apply Permutation_middle|].
  constructor.
  etransitivity; [|apply interleave_perm].
  apply Permutation_app_tail, Permutation_rev.
Qed.

(* ------------------------------------------------------------------ *)
(** ** What [std::sort] returns *)

Lemma std_sort_length {T} `{StdSort T} (comp : T -> T -> bool) (l : list T) :
  StrictWeakOrder comp -> length (std_sort comp l) = length l.
Proof.
  intros SWO. symmetry. apply Permutation_length. now apply std_sort_perm.
Qed.

(** Under an order whose equivalent elements are equal, every sort that
    meets the contract returns the stable sort. *)
Lemma std_sort_stable {T} `{StdSort T} (comp : T -> T -> bool) (l : list T) :
  StrictWeakOrder comp ->
  (forall a b, comp a b = false -> comp b a = false -> a = b) ->
  std_sort comp l = stable_sort comp l.
Proof.
  intros SWO Hanti. apply (sorted_unique Hanti).
  - now apply std_sort_sorted.
  - now apply stable_sort_sorted.
  - etransitivity; [symmetry; now apply std_sort_perm | apply stable_sort_perm].
Qed.

Lemma int_lt_antisym (a b : Z) : ltb a b = false -> ltb b a = false -> a = b.
Proof. cbn. intros H1 H2. apply Z.ltb_ge in H1, H2. lia. Qed.

Lemma int_gt_antisym (a b : Z) : gtb a b = false -> gtb b a = false -> a = b.
Proof.
  cbn. rewrite !Z.gtb_ltb. intros H1 H2. apply Z.ltb_ge in H1, H2. lia.
Qed.

(* ------------------------------------------------------------------ *)
(** ** The six builders *)

Section Builders.
Context {T : Type} `{Element T} `{StdSort T}.
Context {lt_swo : StrictWeakOrder (@ltb T _)}.

Lemma SideCrossOrder_make_ok (fuel : nat) (c : MyContainer.t T) :
  fits (MyContainer.getData c) ->
  (length (MyContainer.getData c) <= fuel)%nat ->
  SideCrossOrder_make fuel c
  = Ok (range (side_cross_spec (std_sort ltb (MyContainer.getData c)))).
Proof.
  intros Hfits Hfuel. unfold SideCrossOrder_make.
  set (sorted := std_sort ltb (MyContainer.getData c)).
  assert (Hlen : length sorted = length (MyContainer.getData c))
    by now apply std_sort_length.
  destruct (@side_cross_loop _ sorted) with (fuel := fuel) as (st & Hw & Hseq).
  - unfold fits, size in *. now rewrite Hlen.
  - now rewrite Hlen.
  - rewrite Hw. cbn [bind]. now rewrite Hseq.
Qed.

Lemma MiddleOutOrder_make_ok (fuel : nat) (c : MyContainer.t T) :
  fits (MyContainer.getData c) ->
  (length (MyContainer.getData c) <= fuel)%nat ->
  MiddleOutOrder_make fuel c
  = Ok (range (middle_out_spec (MyContainer.getData c))).
Proof.
  intros Hfits Hfuel. unfold MiddleOutOrder_make.
  destruct (MyContainer.getData c) as [|a l] eqn:Hd.
  - reflexivity.
  - destruct (Z.eqb_spec (size (a :: l)) 0) as [E|_];
      [unfold size in E; cbn [length] in E; lia|].
    destruct (@middle_out_loop _ (a :: l) Hfits fuel) as (st0 & st & Hi & Hw & Hseq);
      [discriminate | assumption |].
    rewrite Hi. cbn [bind]. rewrite Hw. cbn [bind]. now rewrite Hseq.
Qed.

Lemma make_traversal (k : Kind) (fuel : nat) (c : MyContainer.t T) :
  fits (MyContainer.getData c) ->
  (length (MyContainer.getData c) <= fuel)%nat ->
  make k fuel c = Ok (range (traversal k (MyContainer.getData c))).
Proof.
  intros Hfits Hfuel. destruct k; cbn [make traversal]; try reflexivity.
  - now apply SideCrossOrder_make_ok.
  - now apply MiddleOutOrder_make_ok.
Qed.

Context {gt_swo : StrictWeakOrder (@gtb T _)}.

Lemma traversal_perm (k : Kind) (l : list T) : Permutation l (traversal k l).
Proof.
  destruct k; cbn [traversal].
  - reflexivity.
  - apply Permutation_rev.
  - now apply std_sort_perm.
  - now apply std_sort_perm.
  - apply Permutation_trans with (std_sort ltb l);
      [now apply std_sort_perm | apply side_cross_spec_perm].
  - apply middle_out_spec_perm.
Qed.

Lemma traversal_length (k : Kind) (l : list T) : length (traversal k l) = length l.
Proof. symmetry. apply Permutation_length, traversal_perm. Qed.

End Builders.

(* ------------------------------------------------------------------ *)
(** ** Positions in the side-cross sequence *)

Lemma half_even (q : nat) : ((2 * q) / 2 = q)%nat.
Proof. symmetry. apply Nat.div_unique with (r := 0%nat); lia. Qed.

Lemma half_odd (q : nat) : ((2 * q + 1) / 2 = q)%nat.
Proof. symmetry. apply Nat.div_unique with (r := 1%nat); lia. Qed.

Lemma side_cross_alt_nth {T} (turns : nat) :
  forall (low : bool) (m : list T) (k : nat),
    length m = turns -> (k < turns)%nat ->
    nth_error (side_cross_alt turns low m) k
    = nth_error m (side_cross_source (length m) k low).
Proof.
  induction turns as [|t IH]; intros low m k Hlen Hk; [lia|].
  unfold side_cross_source. destruct low.
  - destruct m as [|x r]; [discriminate|]. cbn [length] in *.
    cbn [side_cross_alt]. destruct k as [|k']; [reflexivity|].
    cbn [nth_error]. rewrite IH by lia. unfold side_cross_source.
    destruct (Nat.Even_or_Odd k') as [[q ->] | [q ->]].
    + rewrite Nat.even_succ, Nat.odd_even, Nat.even_even. cbn [Bool.eqb].
      replace (S (2 * q)) with (2 * q + 1)%nat by lia.
      rewrite half_even, half_odd.
      replace (S (length r) - 1 - q)%nat with (S (length r - 1 - q)) by lia.
      reflexivity.
    + rewrite Nat.even_succ, Nat.odd_odd, Nat.even_odd. cbn [Bool.eqb].
      replace (S (2 * q + 1)) with (2 * (q + 1))%nat by lia.
      rewrite half_even, half_odd.
      replace (q + 1)%nat with (S q) by lia. reflexivity.
  - destruct (last_cases m) as [-> | (m' & y & ->)]; [discriminate|].
    rewrite length_app in *. cbn [length] in *.
    cbn [side_cross_alt]. rewrite rev_unit, rev_involutive.
    destruct k as [|k'].
    + cbn. rewrite nth_error_app2 by lia.
      replace (length m' + 1 - 1 - 0 - length m')%nat with 0%nat by lia.
      reflexivity.
    + cbn [nth_error]. rewrite IH by lia. unfold side_cross_source.
      destruct (Nat.Even_or_Odd k') as [[q ->] | [q ->]].
      * rewrite Nat.even_succ, Nat.odd_even, Nat.even_even. cbn [Bool.eqb].
        replace (S (2 * q)) with (2 * q + 1)%nat by lia.
        rewrite half_even, half_odd.
        rewrite nth_error_app1 by lia. reflexivity.
      * rewrite Nat.even_succ, Nat.odd_odd, Nat.even_odd. cbn [Bool.eqb].
        replace (S (2 * q + 1)) with (2 * (q + 1))%nat by lia.
        rewrite half_even, half_odd.
        rewrite nth_error_app1 by lia. f_equal. lia.
Qed.

(** Element [k] of the side-cross sequence of [s]: [s[k/2]] for even [k],
    [s[n-1-k/2]] for odd [k]. *)
Lemma side_cross_spec_nth {T} (s : list T) (k : nat) :
  (k < length s)%nat ->
  nth_error (side_cross_spec s) k
  = nth_error s (if Nat.even k then k / 2 else length s - 1 - k / 2)%nat.
Proof.
  intros Hk. unfold side_cross_spec.
  rewrite side_cross_alt_nth by auto. unfold side_cross_source.
  now destruct (Nat.even k).
Qed.

(* ------------------------------------------------------------------ *)
(** ** The scenarios of the test suite

    Evaluated with the insertion sort standing for [std::sort]. *)

Section TestSuite.

Let baseA : MyContainer.t Z := MyContainer.mk [7; 15; 6; 1; 2].
Let baseB : MyContainer.t Z := MyContainer.mk [10; -20; 190; 190; 5].

Example test_add_size :
  MyContainer.size
    (MyContainer.addElement 6
       (MyContainer.addElement 15 (MyContainer.addElement 7 MyContainer.empty)))
  = 3.
Proof. reflexivity. Qed.

Example test_remove_all_occurrences :
  MyContainer.removeElement (Outside 2) (MyContainer.mk [1; 2; 2; 3])
  = (MyContainer.mk [1; 3], Ok tt).
Proof. reflexivity. Qed.

Example test_remove_missing :
  snd (MyContainer.removeElement (Outside 999) (MyContainer.mk [10; 20]))
  = Throw (runtime_error "This element does not exist in the container").
Proof. reflexivity. Qed.

Example test_order : begin_order baseA = Ok (Iterator Order [7; 15; 6; 1; 2] 0).
Proof. reflexivity. Qed.

Example test_reverse :
  end_reverse_order baseA = Ok (Iterator ReverseOrder [2; 1; 6; 15; 7] 5).
Proof. reflexivity. Qed.

Example test_ascending :
  begin_ascending_order baseB
  = Ok (Iterator AscendingOrder [-20; 5; 10; 190; 190] 0).
Proof. reflexivity. Qed.

Example test_descending :
  begin_descending_order baseB
  = Ok (Iterator DescendingOrder [190; 190; 10; 5; -20] 0).
Proof. reflexivity. Qed.

Example test_descending_books :
  begin_descending_order
    (MyContainer.mk [mkBook "Short" 120; mkBook "Long" 400; mkBook "Medium" 250])
  = Ok (Iterator DescendingOrder
          [mkBook "Long" 400; mkBook "Medium" 250; mkBook "Short" 120] 0).
Proof. reflexivity. Qed.

Example test_side_cross :
  begin_side_cross_order 5 baseA = Ok (Iterator SideCrossOrder [1; 15; 2; 7; 6] 0).
Proof. reflexivity. Qed.

Example test_middle_out :
  end_middle_out_order 5 baseA = Ok (Iterator MiddleOutOrder [6; 15; 1; 7; 2] 5).
Proof. reflexivity. Qed.

Example test_operators :
  let it := Iterator Order [10; 20; 30] 0 in
  deref it = Ok 10 /\
  deref (incr it) = Ok 20 /\
  snd (post_incr (incr it)) = incr it /\
  deref (fst (post_incr (incr it))) = Ok 30 /\
  deref (incr (incr (incr it))) = Throw out_of_range.
Proof. repeat split. Qed.

End TestSuite.

(* ================================================================== *)
(** * The claims *)

(** C1. For every snapshot, [SideCrossOrder::make] returns the pair over
    the sequence obtained by sorting the snapshot ascending and then taking
    alternately from the low end and from the high end, low first, until
    nothing remains: element [k] is [sorted[k/2]] for even [k] and
    [sorted[n-1-k/2]] for odd [k], so the middle element of an odd-length
    input, at the last and even position, comes on a low turn. The snapshot
    [7,15,6,1,2] gives [1,15,2,7,6] and [1,2,3,4] gives [1,4,2,3]. *)
Theorem side_cross_order_sequence :
  (forall (T : Type) (E : Element T) (S : StdSort T),
      StrictWeakOrder (@ltb T E) ->
      forall (fuel : nat) (c : MyContainer.t T),
        fits (MyContainer.getData c) ->
        (length (MyContainer.getData c) <= fuel)%nat ->
        let sorted := std_sort ltb (MyContainer.getData c) in
        Permutation (MyContainer.getData c) sorted /\
        StronglySorted (not_after ltb) sorted /\
        SideCrossOrder_make fuel c = Ok (range (side_cross_spec sorted)) /\
        forall k, (k < length sorted)%nat ->
          nth_error (side_cross_spec sorted) k
          = nth_error sorted
              (if Nat.even k then k / 2 else length sorted - 1 - k / 2)%nat) /\
  (forall (S : StdSort Z) (fuel : nat), (5 <= fuel)%nat ->
      SideCrossOrder_make fuel (MyContainer.mk [7; 15; 6; 1; 2])
      = Ok (range [1; 15; 2; 7; 6])) /\
  (forall (S : StdSort Z) (fuel : nat), (4 <= fuel)%nat ->
      SideCrossOrder_make fuel (MyContainer.mk [1; 2; 3; 4])
      = Ok (range [1; 4; 2; 3])).
Proof.
  split; [|split].
  - intros T E S SWO fuel c Hfits Hfuel sorted.
    split; [now apply std_sort_perm|].
    split; [now apply std_sort_sorted|].
    split; [now apply SideCrossOrder_make_ok|].
    intros k Hk. now apply side_cross_spec_nth.
  - intros S fuel Hfuel.
    rewrite SideCrossOrder_make_ok;
      [| unfold fits, size, max_size; cbn; lia | exact Hfuel].
    cbn [MyContainer.getData MyContainer.data].
    rewrite (std_sort_stable _ int_lt_swo int_lt_antisym). reflexivity.
  - intros S fuel Hfuel.
    rewrite SideCrossOrder_make_ok;
      [| unfold fits, size, max_size; cbn; lia | exact Hfuel].
    cbn [MyContainer.getData MyContainer.data].
    rewrite (std_sort_stable _ int_lt_swo int_lt_antisym). reflexivity.
Qed.

Lemma side_cross_order_sequence_witness :
  @SideCrossOrder_make Z _ StdSort_backward 3 (MyContainer.mk [3; 1; 2])
  = Ok (range [1; 3; 2]) /\
  @SideCrossOrder_make Z _ StdSort_insertion 5 (MyContainer.mk [7; 15; 6; 1; 2])
  = Ok (range [1; 15; 2; 7; 6]).
Proof.
  split.
  - refine (proj1 (proj2 (proj2 (proj1 side_cross_order_sequence
              Z _ StdSort_backward int_lt_swo 3%nat (MyContainer.mk [3; 1; 2]) _ _)))).
    + unfold fits, size, max_size. cbn. lia.
    + cbn. lia.
  - apply (proj1 (proj2 side_cross_order_sequence) StdSort_insertion 5%nat).
    lia.
Defined.

(** C2. For every snapshot of size [n], [MiddleOutOrder::make] returns the
    pair over the sequence that starts with the element at index
    [(n-1)/2] of the insertion order and continues with the elements to its
    left, nearest first, alternating with the elements to its right, a left
    one first, the longer side being consumed alone once the other is
    exhausted. Sizes 0 and 1 give the empty and the one-element sequence;
    [7,15,6,1,2] gives [6,15,1,7,2] and [1,2,3,4] gives [2,1,3,4]. *)
Theorem middle_out_order_sequence :
  (forall (T : Type) (fuel : nat) (c : MyContainer.t T),
      fits (MyContainer.getData c) ->
      (length (MyContainer.getData c) <= fuel)%nat ->
      MiddleOutOrder_make fuel c
      = Ok (range (middle_out_spec (MyContainer.getData c)))) /\
  (forall (T : Type) (l : list T) (m : T),
      nth_error l ((length l - 1) / 2) = Some m ->
      middle_out_spec l
      = m :: interleave (rev (firstn ((length l - 1) / 2) l))
                        (skipn (S ((length l - 1) / 2)) l)) /\
  (forall (T : Type) (fuel : nat),
      MiddleOutOrder_make fuel (MyContainer.mk (@nil T)) = Ok (range [])) /\
  (forall (T : Type) (fuel : nat) (x : T),
      MiddleOutOrder_make fuel (MyContainer.mk [x]) = Ok (range [x])) /\
  (forall fuel : nat, (5 <= fuel)%nat ->
      MiddleOutOrder_make fuel (MyContainer.mk [7; 15; 6; 1; 2])
      = Ok (range [6; 15; 1; 7; 2])) /\
  (forall fuel : nat, (4 <= fuel)%nat ->
      MiddleOutOrder_make fuel (MyContainer.mk [1; 2; 3; 4])
      = Ok (range [2; 1; 3; 4])).
Proof.
  split; [|split; [|split; [|split; [|split]]]].
  - intros T fuel c Hfits Hfuel. now apply MiddleOutOrder_make_ok.
  - intros T l m Hm. unfold middle_out_spec. now rewrite Hm.
  - intros T fuel. reflexivity.
  - intros T fuel x. now destruct fuel.
  - intros fuel Hfuel. rewrite MiddleOutOrder_make_ok;
      [reflexivity | unfold fits, size, max_size; cbn; lia | exact Hfuel].
  - intros fuel Hfuel. rewrite MiddleOutOrder_make_ok;
      [reflexivity | unfold fits, size, max_size; cbn; lia | exact Hfuel].
Qed.

Lemma middle_out_order_sequence_witness :
  MiddleOutOrder_make 6 (MyContainer.mk [10; 20; 30; 40; 50; 60])
  = Ok (range [30; 20; 40; 10; 50; 60]).
Proof.
  refine (proj1 middle_out_order_sequence Z 6%nat
            (MyContainer.mk [10; 20; 30; 40; 50; 60]) _ _).
  - unfold fits, size, max_size. cbn. lia.
  - cbn. lia.
Defined.

(** C3, as stated, fails: the code calls [std::sort], which leaves
    equivalent elements in an order of its own. For seventeen books of one
    page each, added as [A] to [Q], the sort of libstdc++ gives
    [I Q P O N M L K J A H G F E D C B] for [<] and for [>], and these are
    the sequences of [AscendingOrder::make] and [DescendingOrder::make];
    the stable sorts are [A] to [Q], the order of insertion. *)
Lemma sorted_orders_not_stable :
  let libstdcxx := StdSort_libstdcxx Book_eq_dec in
  let c := MyContainer.mk seventeen_books in
  let asc := view (fst (@AscendingOrder_make Book _ libstdcxx c)) in
  let desc := view (fst (@DescendingOrder_make Book _ libstdcxx c)) in
  Libstdcxx.sort ltb (MyContainer.getData c) = Ok asc /\
  Libstdcxx.sort gtb (MyContainer.getData c) = Ok desc /\
  map title asc
  = ["I"; "Q"; "P"; "O"; "N"; "M"; "L"; "K"; "J"; "A"; "H"; "G"; "F"; "E";
     "D"; "C"; "B"]%string /\
  map title desc = map title asc /\
  stable_sort ltb (MyContainer.getData c) = seventeen_books /\
  stable_sort gtb (MyContainer.getData c) = seventeen_books /\
  asc <> stable_sort ltb (MyContainer.getData c) /\
  desc <> stable_sort gtb (MyContainer.getData c) /\
  forallb (fun a => forallb (equivalent ltb a) seventeen_books) seventeen_books
  = true.
Proof.
  cbv zeta. repeat split; try (vm_compute; reflexivity); vm_compute; discriminate.
Qed.

(** C3, amended. [AscendingOrder::make] returns the pair over a permutation
    of the snapshot sorted by [<], and [DescendingOrder::make] over one
    sorted by [>]. Where elements equivalent under the order are equal, as
    for [int], these are the stable sorts; otherwise the order of equivalent
    elements is the one [std::sort] leaves. *)
Theorem sorted_orders_sequence :
  forall (T : Type) (E : Element T) (S : StdSort T),
    StrictWeakOrder (@ltb T E) -> StrictWeakOrder (@gtb T E) ->
    forall c : MyContainer.t T,
      let asc := std_sort ltb (MyContainer.getData c) in
      let desc := std_sort gtb (MyContainer.getData c) in
      AscendingOrder_make c = range asc /\
      DescendingOrder_make c = range desc /\
      Permutation (MyContainer.getData c) asc /\
      StronglySorted (not_after ltb) asc /\
      Permutation (MyContainer.getData c) desc /\
      StronglySorted (not_after gtb) desc /\
      ((forall a b : T, ltb a b = false -> ltb b a = false -> a = b) ->
       asc = stable_sort ltb (MyContainer.getData c)) /\
      ((forall a b : T, gtb a b = false -> gtb b a = false -> a = b) ->
       desc = stable_sort gtb (MyContainer.getData c)).
Proof.
  intros T E S Hlt Hgt c asc desc.
  split; [reflexivity|]. split; [reflexivity|].
  split; [now apply std_sort_perm|]. split; [now apply std_sort_sorted|].
  split; [now apply std_sort_perm|]. split; [now apply std_sort_sorted|].
  split; intros Hanti; now apply std_sort_stable.
Qed.

Lemma sorted_orders_sequence_witness :
  @AscendingOrder_make Z _ StdSort_backward (MyContainer.mk [7; 15; 6; 1; 2])
  = range [1; 2; 6; 7; 15] /\
  @std_sort Z StdSort_backward gtb [10; -20; 190; 190; 5]
  = stable_sort gtb [10; -20; 190; 190; 5].
Proof.
  split.
  - exact (proj1 (@sorted_orders_sequence Z _ StdSort_backward int_lt_swo
                    int_gt_swo (MyContainer.mk [7; 15; 6; 1; 2]))).
  - destruct (@sorted_orders_sequence Z _ StdSort_backward int_lt_swo int_gt_swo
                (MyContainer.mk [10; -20; 190; 190; 5]))
      as (_ & _ & _ & _ & _ & _ & _ & Hstable).
    apply Hstable. exact int_gt_antisym.
Defined.

(* ------------------------------------------------------------------ *)
(** ** [removeElement] *)

Lemma element_middle {T} (pre post : list T) (x : T) :
  element (pre ++ x :: post) (length pre) = Ok x.
Proof.
  unfold element. rewrite nth_error_app2, Nat.sub_diag by lia. reflexivity.
Qed.

Lemma assign_middle {T} (pre post : list T) (x y : T) :
  assign (pre ++ y :: post) (length pre) x = pre ++ x :: post.
Proof.
  induction pre as [|z pre IH]; cbn; [reflexivity | now rewrite IH].
Qed.

Lemma filter_all {T} (p : T -> bool) (l : list T) :
  (forall x, In x l -> p x = true) -> filter p l = l.
Proof.
  induction l as [|x l IH]; cbn; intros Hall; [reflexivity|].
  rewrite (Hall x (or_introl eq_refl)). f_equal. apply IH.
  intros y Hy. apply Hall. now right.
Qed.

Section StdRemoveOutside.
Context {T : Type} `{Element T} `{MoveAssign T} (v : T).

Lemma unmatched_prefix_split (a : list T) :
  exists rest,
    a = unmatched_prefix v a ++ rest /\
    kept v a = unmatched_prefix v a ++ kept v rest /\
    (rest = [] \/ exists m r, rest = m :: r /\ eqb m v = true).
Proof.
  induction a as [|x a (rest & Ha & Hk & Hrest)]; cbn [unmatched_prefix].
  - exists []. repeat split. now left.
  - destruct (eqb x v) eqn:Hx.
    + exists (x :: a). repeat split. right. now exists x, a.
    + exists rest. cbn [app]. split; [now rewrite <- Ha|]. split; [|exact Hrest].
      unfold kept in *. cbn [filter]. rewrite Hx. cbn [negb]. now rewrite Hk.
Qed.

Lemma find_if_outside (r : list T) :
  forall pre : list T,
    find_if (pre ++ r) (Outside v) (length pre) (length r)
    = Ok (length pre + length (unmatched_prefix v r))%nat.
Proof.
  induction r as [|x r IH]; intros pre; cbn [length find_if unmatched_prefix].
  - now rewrite Nat.add_0_r.
  - rewrite element_middle. cbn [bind read]. destruct (eqb x v).
    + now rewrite Nat.add_0_r.
    + replace (pre ++ x :: r) with ((pre ++ [x]) ++ r)
        by (rewrite <- app_assoc; reflexivity).
      replace (S (length pre)) with (length (pre ++ [x]))
        by (rewrite length_app; cbn; lia).
      rewrite IH, length_app. cbn [length]. f_equal. lia.
Qed.

Lemma remove_loop_outside (r : list T) :
  forall kp junk : list T,
    junk <> [] ->
    exists junk',
      remove_loop (kp ++ junk ++ r) (Outside v) (length kp)
                  (length kp + length junk) (length r)
      = Ok (kp ++ kept v r ++ junk', (length kp + length (kept v r))%nat).
Proof.
  induction r as [|x r IH]; intros kp junk Hjunk; cbn [length remove_loop].
  - exists junk. cbn [kept filter app length]. now rewrite app_nil_r, Nat.add_0_r.
  - assert (Hx : element (kp ++ junk ++ x :: r) (length kp + length junk) = Ok x).
    { rewrite app_assoc, <- length_app. apply element_middle. }
    rewrite Hx. cbn [bind read].
    destruct (eqb x v) eqn:Hxv; cbn [negb].
    + assert (Hk : kept v (x :: r) = kept v r)
        by (unfold kept; cbn [filter]; now rewrite Hxv).
      rewrite Hk.
      destruct (IH kp (junk ++ [x])) as (junk' & Hloop);
        [intros E; now apply app_eq_nil in E as [_ E]|].
      exists junk'. rewrite <- Hloop. f_equal.
      * now rewrite <- app_assoc.
      * rewrite length_app. cbn [length]. lia.
    + assert (Hk : kept v (x :: r) = x :: kept v r)
        by (unfold kept; cbn [filter]; now rewrite Hxv).
      rewrite Hk.
      destruct junk as [|j jt]; [congruence|].
      cbn [app]. rewrite assign_middle.
      replace (kp ++ x :: jt ++ x :: r) with ((kp ++ x :: jt) ++ x :: r)
        by (rewrite <- app_assoc; reflexivity).
      replace (length kp + length (j :: jt))%nat with (length (kp ++ x :: jt))
        by (rewrite length_app; reflexivity).
      rewrite assign_middle.
      destruct (IH (kp ++ [x]) (jt ++ [moved_from x])) as (junk' & Hloop);
        [intros E; now apply app_eq_nil in E as [_ E]|].
      exists junk'.
      replace ((kp ++ x :: jt) ++ moved_from x :: r)
        with ((kp ++ [x]) ++ (jt ++ [moved_from x]) ++ r)
        by (rewrite <- !app_assoc; reflexivity).
      replace (S (length kp)) with (length (kp ++ [x]))
        by (rewrite length_app; cbn; lia).
      replace (S (length (kp ++ x :: jt)))
        with (length (kp ++ [x]) + length (jt ++ [moved_from x]))%nat
        by (rewrite !length_app; cbn [length]; lia).
      rewrite Hloop. f_equal. f_equal.
      * rewrite <- !app_assoc. reflexivity.
      * rewrite length_app. cbn [length]. lia.
Qed.

(** With a value outside the vector, [std::remove] brings the elements
    that do not equal it to the front, in their order. *)
Lemma std_remove_outside (a : list T) :
  exists junk,
    std_remove a (Outside v) = Ok (kept v a ++ junk, length (kept v a)).
Proof.
  destruct (unmatched_prefix_split a) as (rest & Ha & Hk & Hrest).
  unfold std_remove.
  pose proof (find_if_outside a []) as Hfind. cbn [app length Nat.add] in Hfind.
  rewrite Hfind. cbn [bind].
  destruct Hrest as [-> | (m & r & -> & Hm)].
  - change (kept v []) with (@nil T) in Hk. rewrite app_nil_r in Ha, Hk.
    rewrite Hk, <- Ha, Nat.eqb_refl. exists []. now rewrite app_nil_r.
  - assert (Hlen : length a = (length (unmatched_prefix v a) + S (length r))%nat)
      by (rewrite Ha at 1; rewrite length_app; reflexivity).
    destruct (Nat.eqb_spec (length (unmatched_prefix v a)) (length a)); [lia|].
    assert (Hm1 : [m] <> []) by discriminate.
    destruct (remove_loop_outside r (unmatched_prefix v a) Hm1) as (junk & Hloop).
    exists junk. cbn [length app] in Hloop.
    replace (length a - S (length (unmatched_prefix v a)))%nat with (length r) by lia.
    replace (S (length (unmatched_prefix v a)))
      with (length (unmatched_prefix v a) + 1)%nat by lia.
    rewrite Ha at 1. rewrite Hloop. f_equal. f_equal.
    + rewrite Hk. unfold kept at 2. cbn [filter]. rewrite Hm. cbn [negb].
      fold (kept v r). now rewrite <- app_assoc.
    + rewrite Hk. unfold kept at 2. cbn [filter]. rewrite Hm. cbn [negb].
      fold (kept v r). now rewrite length_app.
Qed.

(** Called with a value outside the container, [removeElement] drops the
    elements equal to it and throws when there was none. *)
Lemma removeElement_outside (c : MyContainer.t T) :
  MyContainer.removeElement (Outside v) c = remove_value v c.
Proof.
  unfold MyContainer.removeElement, remove_value.
  destruct (std_remove_outside (MyContainer.data c)) as (junk & ->).
  now rewrite firstn_app, Nat.sub_diag, firstn_all, firstn_O, app_nil_r.
Qed.

End StdRemoveOutside.

(** Looking for the first match reads the value through the reference, and
    nothing has been moved by then. *)
Lemma find_if_read {T} `{Element T} (a : list T) (value : cref T) (v : T) :
  read a value = Ok v ->
  forall todo first : nat,
    find_if a value first todo = find_if a (Outside v) first todo.
Proof.
  intros Hr. induction todo as [|todo IH]; intros first; cbn [find_if];
    [reflexivity|].
  destruct (element a first); cbn [bind]; try reflexivity.
  rewrite Hr. cbn [read bind]. destruct (eqb _ _); [reflexivity | apply IH].
Qed.

Lemma unmatched_prefix_fresh {T} `{Element T} (v : T) (d : list T) :
  eqb v v = true ->
  (forall e, In e d -> eqb e v = false) ->
  unmatched_prefix v (d ++ [v]) = d.
Proof.
  intros Hvv. induction d as [|x d IH]; intros Hfresh; cbn [app unmatched_prefix].
  - now rewrite Hvv.
  - rewrite (Hfresh x (or_introl eq_refl)). f_equal. apply IH.
    intros e He. apply Hfresh. now right.
Qed.

Lemma remove_value_fst {T} `{Element T} (v : T) (d : list T) :
  fst (remove_value v (MyContainer.mk d)) = MyContainer.mk (kept v d).
Proof.
  unfold remove_value. cbn [MyContainer.data]. now destruct (_ =? _).
Qed.

(** Runs of the library's sort on twenty books: with one page each; with
    mixed page counts, through the partitioning and through the heap sort
    it falls back on. *)
Example libstdcxx_sort_runs :
  let titled := fun ts ps => map (fun tp => mkBook (fst tp) (snd tp)) (combine ts ps) in
  let ts := ["A"; "B"; "C"; "D"; "E"; "F"; "G"; "H"; "I"; "J"; "K"; "L"; "M";
             "N"; "O"; "P"; "Q"; "R"; "S"; "T"]%string in
  let mixed := titled ts [5; 3; 5; 1; 4; 5; 2; 3; 3; 1; 4; 4; 2; 5; 1; 2; 3; 4; 5; 1] in
  Libstdcxx.sort ltb (titled ts (repeat 1 20))
  = Ok (titled ["K"; "T"; "S"; "R"; "Q"; "P"; "O"; "N"; "M"; "L"; "A"; "J";
                "I"; "H"; "G"; "F"; "E"; "D"; "C"; "B"]%string (repeat 1 20)) /\
  Libstdcxx.sort ltb mixed
  = Ok (titled ["T"; "D"; "O"; "J"; "P"; "G"; "M"; "B"; "Q"; "I"; "H"; "K";
                "L"; "E"; "R"; "N"; "F"; "C"; "S"; "A"]%string
               [1; 1; 1; 1; 2; 2; 2; 3; 3; 3; 3; 4; 4; 4; 4; 5; 5; 5; 5; 5]) /\
  Libstdcxx.partial_sort ltb mixed 0 20 20
  = Ok (titled ["J"; "T"; "D"; "O"; "P"; "M"; "G"; "Q"; "I"; "H"; "B"; "R";
                "E"; "K"; "L"; "S"; "F"; "A"; "C"; "N"]%string
               [1; 1; 1; 1; 2; 2; 2; 3; 3; 3; 3; 4; 4; 4; 4; 5; 5; 5; 5; 5]) /\
  Libstdcxx.sort Z.ltb [7; 15; 6; 1; 2] = Ok [1; 2; 6; 7; 15] /\
  Libstdcxx.sort ltb (firstn 16 seventeen_books) = Ok (firstn 16 seventeen_books).
Proof. cbv zeta. repeat split; vm_compute; reflexivity. Qed.

(** The calls of [removeElement] with a reference to an element of the
    container, as the library runs them. *)
Example removeElement_aliased_calls :
  MyContainer.removeElement (Inside 0) (MyContainer.mk [1; 2; 2])
  = (MyContainer.mk [2], Ok tt) /\
  MyContainer.removeElement (Inside 3) (MyContainer.mk [3; 1; 2; 1])
  = (MyContainer.mk [3; 2], Ok tt) /\
  MyContainer.removeElement (Inside 1) (MyContainer.mk [3; 1; 2; 1; 1; 2])
  = (MyContainer.mk [3; 2; 1; 1], Ok tt) /\
  MyContainer.removeElement (Inside 2) (MyContainer.mk [7; 15; 6])
  = (MyContainer.mk [7; 15], Ok tt).
Proof. repeat split. Qed.

Lemma filter_subsequence {T} (p : T -> bool) (l : list T) :
  Subsequence (filter p l) l.
Proof.
  induction l as [|x l IH]; cbn; [constructor|].
  destruct (p x); now constructor.
Qed.

Lemma filter_length_le {T} (p : T -> bool) (l : list T) :
  (length (filter p l) <= length l)%nat.
Proof.
  induction l as [|x l IH]; cbn; [lia|]. destruct (p x); cbn; lia.
Qed.

Lemma filter_length_all {T} (p : T -> bool) (l : list T) :
  length (filter p l) = length l <-> forall x, In x l -> p x = true.
Proof.
  induction l as [|x l IH]; cbn; [tauto|].
  pose proof (filter_length_le p l) as Hle.
  destruct (p x) eqn:Hx; cbn.
  - split.
    + intros E y [<- | Hy]; [assumption|]. apply IH; [lia | assumption].
    + intros Hall. f_equal. apply IH. intros y Hy. apply Hall. now right.
  - split; [lia|]. intros Hall. specialize (Hall x (or_introl eq_refl)). congruence.
Qed.


(** C4 fails on the code when the argument is a reference to an element
    of the container: [std::remove] reads the value through the reference
    after it has moved another element into that place. For the container
    [1,2,1,2], [c.removeElement(c.getData()[0])] returns and leaves [2,1]:
    an element equal to the value asked for survives and one that differed
    from it is gone, where removing every 1 would leave [2,2]. *)
Theorem removeElement_aliased_argument :
  let c : MyContainer.t Z := MyContainer.mk [1; 2; 1; 2] in
  let c' := fst (MyContainer.removeElement (Inside 0) c) in
  read (MyContainer.getData c) (Inside 0) = Ok 1 /\
  MyContainer.removeElement (Inside 0) c = (MyContainer.mk [2; 1], Ok tt) /\
  In 1 (MyContainer.getData c') /\
  kept 1 (MyContainer.getData c) = [2; 2] /\
  MyContainer.removeElement (Outside 1) c = (MyContainer.mk [2; 2], Ok tt).
Proof. repeat split. right. now left. Qed.

(** X17. Called with a value that is not an element of the container
    itself, [removeElement(v)] throws the not-found [std::runtime_error]
    exactly when no element of the container equals [v], and then the
    contents are what they were. Otherwise it returns, and the container
    holds the elements that do not equal [v], in their former order. *)
Theorem removeElement_not_found_iff :
  forall (T : Type) (E : Element T) (M : MoveAssign T) (v : T) (c : MyContainer.t T),
    let c' := fst (MyContainer.removeElement (Outside v) c) in
    let r := snd (MyContainer.removeElement (Outside v) c) in
    (r = Throw MyContainer.not_found <->
     forall e, In e (MyContainer.data c) -> eqb e v = false) /\
    (r = Throw MyContainer.not_found -> c' = c) /\
    ((exists e, In e (MyContainer.data c) /\ eqb e v = true) ->
     r = Ok tt /\
     MyContainer.data c'
     = filter (fun e => negb (eqb e v)) (MyContainer.data c) /\
     Forall (fun e => eqb e v = false) (MyContainer.data c') /\
     Subsequence (MyContainer.data c') (MyContainer.data c)).
Proof.
  intros T E M v [data] c' r. subst c' r.
  rewrite removeElement_outside. unfold remove_value, kept.
  cbn [MyContainer.data].
  set (p := fun e => negb (eqb e v)).
  assert (Hall : length (filter p data) = length data <->
                 forall e, In e data -> eqb e v = false).
  { rewrite filter_length_all. subst p. cbn beta.
    split; intros Hp e He; specialize (Hp e He);
      [now apply negb_true_iff in Hp | now apply negb_true_iff]. }
  destruct (Z.eqb_spec (size (filter p data)) (size data)) as [Heq | Hne];
    cbn [fst snd MyContainer.data].
  - assert (Hlen : length (filter p data) = length data)
      by (unfold size in Heq; lia).
    pose proof (proj1 Hall Hlen) as Hnone.
    split; [tauto|]. split.
    + intros _. f_equal. apply filter_all. intros e He. subst p. cbn beta.
      now rewrite (Hnone e He).
    + intros (e & He & Hev). rewrite (Hnone e He) in Hev. discriminate.
  - assert (Hlen : length (filter p data) <> length data)
      by (unfold size in Hne; lia).
    split; [split; [discriminate | intros Hnone; tauto]|].
    split; [discriminate|]. intros _.
    split; [reflexivity|]. split; [reflexivity|]. split.
    + apply Forall_forall. intros e He. apply filter_In in He as [_ He].
      subst p. cbn beta in He. now apply negb_true_iff in He.
    + apply filter_subsequence.
Qed.

Lemma removeElement_not_found_iff_witness :
  MyContainer.removeElement (Outside 2) (MyContainer.mk [1; 2; 2; 3])
  = (MyContainer.mk [1; 3], Ok tt) /\
  fst (MyContainer.removeElement (Outside 999) (MyContainer.mk [10; 20]))
  = MyContainer.mk [10; 20].
Proof.
  split.
  - destruct (@removeElement_not_found_iff Z _ _ 2 (MyContainer.mk [1; 2; 2; 3]))
      as (_ & _ & Hfound).
    destruct Hfound as (Hr & Hdata & _ & _).
    + exists 2. split; [cbn; tauto | reflexivity].
    + reflexivity.
  - destruct (@removeElement_not_found_iff Z _ _ 999 (MyContainer.mk [10; 20]))
      as (_ & Hsame & _).
    apply Hsame. reflexivity.
Defined.

(* ------------------------------------------------------------------ *)
(** ** Iterators *)

Lemma vector_eqb_refl {T} `{Element T} (v : list T) :
  (forall x : T, eqb x x = true) -> vector_eqb v v = true.
Proof.
  intros Hrefl. unfold vector_eqb. rewrite Z.eqb_refl. cbn [andb].
  induction v as [|x v IH]; cbn; [reflexivity|]. now rewrite Hrefl, IH.
Qed.

Lemma incr_times {T} {k : Kind} (v : list T) (n : nat) :
  Z.of_nat n < 2 ^ 64 ->
  Nat.iter n incr (Iterator k v 0) = Iterator k v (Z.of_nat n).
Proof.
  induction n as [|n IH]; intros Hn; [reflexivity|].
  rewrite Nat.iter_succ, IH by lia. unfold incr. cbn [view idx].
  f_equal. rewrite size_t_small; lia.
Qed.

(** C5. For each of the six traversals and every container, the begin
    iterator equals the end iterator exactly when the container is empty,
    and [size()] increments take the begin iterator to one equal to the end
    iterator. *)
Theorem begin_end_range :
  forall (T : Type) (E : Element T) (S : StdSort T),
    (forall x : T, eqb x x = true) ->
    StrictWeakOrder (@ltb T E) -> StrictWeakOrder (@gtb T E) ->
    forall (k : Kind) (fuel : nat) (c : MyContainer.t T),
      fits (MyContainer.getData c) ->
      (length (MyContainer.getData c) <= fuel)%nat ->
      exists b e : iterator T k,
        begin_ k fuel c = Ok b /\ end_ k fuel c = Ok e /\
        (iter_eqb b e = true <-> MyContainer.size c = 0) /\
        (MyContainer.size c = 0 <-> MyContainer.getData c = []) /\
        iter_eqb (Nat.iter (Z.to_nat (MyContainer.size c)) incr b) e = true.
Proof.
  intros T E S Hrefl Hlt Hgt k fuel c Hfits Hfuel.
  unfold begin_, end_. rewrite make_traversal by assumption.
  cbn [bind range fst snd].
  set (v := traversal k (MyContainer.getData c)).
  assert (Hv : size v = MyContainer.size c).
  { unfold MyContainer.size, size. subst v. now rewrite traversal_length. }
  eexists; eexists. split; [reflexivity|]. split; [reflexivity|].
  unfold iter_eqb. cbn [view idx]. rewrite (vector_eqb_refl v Hrefl).
  rewrite andb_true_r. split; [|split].
  - rewrite Hv. split; intros Heq; [apply Z.eqb_eq in Heq | apply Z.eqb_eq]; lia.
  - unfold MyContainer.size, size, MyContainer.getData.
    destruct (MyContainer.data c); cbn [length]; split;
      intros Heq; try reflexivity; try discriminate; lia.
  - rewrite incr_times.
    + cbn [idx view]. rewrite (vector_eqb_refl v Hrefl), andb_true_r.
      apply Z.eqb_eq. rewrite <- Hv. unfold size. lia.
    + unfold fits, max_size, MyContainer.size, MyContainer.getData, size in *. lia.
Qed.

Lemma begin_end_range_witness :
  exists b e : iterator Z MiddleOutOrder,
    begin_middle_out_order 3 (MyContainer.mk [7; 15; 6]) = Ok b /\
    end_middle_out_order 3 (MyContainer.mk [7; 15; 6]) = Ok e /\
    iter_eqb (incr (incr (incr b))) e = true.
Proof.
  destruct (@begin_end_range Z Element_int StdSort_insertion Z.eqb_refl
              int_lt_swo int_gt_swo
              MiddleOutOrder 3%nat (MyContainer.mk [7; 15; 6]))
    as (b & e & Hb & He & _ & _ & Hn).
  - unfold fits, size, max_size. cbn. lia.
  - cbn. lia.
  - exists b, e. split; [exact Hb|]. split; [exact He|]. exact Hn.
Defined.

(** C6. Dereferencing an iterator of any of the six classes throws
    [std::out_of_range] exactly when its index is at or beyond the length
    of its sequence; at every index below the length it returns the element
    of the sequence at that index. *)
Theorem deref_out_of_range_iff :
  forall (T : Type) (E : Element T) (k : Kind) (it : iterator T k),
    (deref it = Throw out_of_range <-> size (view it) <= idx it) /\
    (0 <= idx it < size (view it) ->
     exists x, nth_error (view it) (Z.to_nat (idx it)) = Some x /\
               deref it = Ok x).
Proof.
  intros T E k [v i]. unfold deref, at_. cbn [view idx].
  destruct (Z.leb_spec (size v) i) as [Hge | Hlt].
  - split; [tauto | lia].
  - split.
    + split; [|lia]. destruct (nth_error v (Z.to_nat i)); discriminate.
    + intros [H0 _].
      destruct (nth_error v (Z.to_nat i)) as [x|] eqn:Hx; [now exists x|].
      apply nth_error_None in Hx. unfold size in Hlt. lia.
Qed.

Lemma deref_out_of_range_iff_witness :
  deref (Iterator SideCrossOrder [1; 15; 2; 7; 6] 3) = Ok 7 /\
  deref (Iterator Order [10; 20; 30] 3) = Throw out_of_range.
Proof.
  split.
  - destruct (proj2 (@deref_out_of_range_iff Z _ SideCrossOrder
                       (Iterator SideCrossOrder [1; 15; 2; 7; 6] 3)))
      as (x & Hx & Hd).
    + unfold size. cbn. lia.
    + rewrite Hd. vm_compute in Hx. congruence.
  - apply (proj1 (@deref_out_of_range_iff Z _ Order
                    (Iterator Order [10; 20; 30] 3))).
    unfold size. cbn. lia.
Defined.

(* ------------------------------------------------------------------ *)
(** ** Iterators and later mutation *)

Module StoreFacts.
Import Store.

Section Frame.
Context {T : Type} `{Element T} `{MoveAssign T} `{StdSort T}.

Lemma load_store_other (h : heap T) (a b : nat) (v : list T) :
  a <> b -> load (store h a v) b = load h b.
Proof.
  unfold load. revert a b. induction h as [|w h IH]; intros a b Hab.
  - reflexivity.
  - destruct a as [|a]; destruct b as [|b]; cbn; try reflexivity;
      [congruence | apply IH; congruence].
Qed.

Lemma load_new_vector (h : heap T) (v : list T) :
  load (fst (new_vector h v)) (snd (new_vector h v)) = v.
Proof.
  unfold load, new_vector. cbn [fst snd].
  rewrite app_nth2 by lia. now rewrite Nat.sub_diag.
Qed.

Lemma load_new_vector_old (h : heap T) (v : list T) (a : nat) :
  (a < length h)%nat -> load (fst (new_vector h v)) a = load h a.
Proof.
  intros Ha. unfold load, new_vector. cbn [fst]. now apply app_nth1.
Qed.

Lemma mutate_frame (c : nat) (h : heap T) (m : mutation T) (a : nat) :
  a <> c -> load (mutate c h m) a = load h a.
Proof.
  intros Hac. destruct m as [value | value]; cbn [mutate].
  - unfold addElement. apply load_store_other. congruence.
  - unfold removeElement.
    destruct (MyContainer.removeElement value (MyContainer.mk (load h c))) as [c' r].
    cbn [fst]. apply load_store_other. congruence.
Qed.

Lemma mutations_frame (c : nat) (ms : list (mutation T)) :
  forall (h : heap T) (a : nat),
    a <> c -> load (mutations c ms h) a = load h a.
Proof.
  unfold mutations. induction ms as [|m ms IH]; intros h a Hac; [reflexivity|].
  cbn [fold_left]. rewrite IH by assumption. now apply mutate_frame.
Qed.

End Frame.

End StoreFacts.

(** C7. Once [make] has built a pair of iterators from a container, any
    sequence of [addElement] and [removeElement] calls on that container
    leaves both iterators as they were: same sequence, same index, hence
    the same results of dereferencing, advancing and comparing; and the
    pair is the one built from the contents the container had at the
    call. *)
Theorem iterators_survive_mutation :
  forall (T : Type) (E : Element T) (M : MoveAssign T) (S : StdSort T)
         (k : Kind) (fuel : nat) (h h' : Store.heap T) (c : nat)
         (b e : Store.handle k) (ms : list (Store.mutation T)),
    (c < length h)%nat ->
    Store.make k fuel h c = Ok (h', (b, e)) ->
    let h'' := Store.mutations c ms h' in
    Store.iterator_at h'' b = Store.iterator_at h' b /\
    Store.iterator_at h'' e = Store.iterator_at h' e /\
    make k fuel (MyContainer.mk (Store.load h c))
    = Ok (Store.iterator_at h'' b, Store.iterator_at h'' e) /\
    (forall n : nat,
        deref (Nat.iter n incr (Store.iterator_at h'' b))
        = deref (Nat.iter n incr (Store.iterator_at h' b))) /\
    (forall n : nat,
        iter_eqb (Nat.iter n incr (Store.iterator_at h'' b))
                 (Store.iterator_at h'' e)
        = iter_eqb (Nat.iter n incr (Store.iterator_at h' b))
                   (Store.iterator_at h' e)).
Proof.
  intros T E M S k fuel h h' c b e ms Hc Hmake h''.
  unfold Store.make in Hmake.
  destruct (make k fuel (MyContainer.mk (Store.load h c))) as [[ib ie]| | |] eqn:Hp;
    cbn [bind] in Hmake; try discriminate.
  cbn [fst snd Store.new_vector] in Hmake.
  inversion Hmake; subst h' b e; clear Hmake.
  assert (Hb : Store.iterator_at h'' (Store.Handle k (length h) (idx ib))
               = ib).
  { unfold Store.iterator_at. cbn [Store.view_at Store.idx_of]. subst h''.
    rewrite StoreFacts.mutations_frame by lia.
    change ((h ++ [view ib]) ++ [view ie])
      with (fst (Store.new_vector (h ++ [view ib]) (view ie))).
    rewrite StoreFacts.load_new_vector_old by (rewrite length_app; cbn; lia).
    change (h ++ [view ib]) with (fst (Store.new_vector h (view ib))).
    change (length h) with (snd (Store.new_vector h (view ib))).
    rewrite StoreFacts.load_new_vector. now destruct ib. }
  assert (He : Store.iterator_at h'' (Store.Handle k (length (h ++ [view ib])) (idx ie))
               = ie).
  { unfold Store.iterator_at. cbn [Store.view_at Store.idx_of]. subst h''.
    rewrite StoreFacts.mutations_frame by (rewrite length_app; cbn; lia).
    change ((h ++ [view ib]) ++ [view ie])
      with (fst (Store.new_vector (h ++ [view ib]) (view ie))).
    change (length (h ++ [view ib]))
      with (snd (Store.new_vector (h ++ [view ib]) (view ie))).
    rewrite StoreFacts.load_new_vector. now destruct ie. }
  assert (Hb0 : Store.iterator_at ((h ++ [view ib]) ++ [view ie])
                  (Store.Handle k (length h) (idx ib)) = ib).
  { unfold Store.iterator_at, Store.load. cbn [Store.view_at Store.idx_of].
    rewrite app_nth1 by (rewrite length_app; cbn; lia).
    rewrite app_nth2, Nat.sub_diag by lia. now destruct ib. }
  assert (He0 : Store.iterator_at ((h ++ [view ib]) ++ [view ie])
                  (Store.Handle k (length (h ++ [view ib])) (idx ie)) = ie).
  { unfold Store.iterator_at, Store.load. cbn [Store.view_at Store.idx_of].
    rewrite app_nth2, Nat.sub_diag by lia. now destruct ie. }
  rewrite Hb, He, Hb0, He0. repeat split; reflexivity.
Qed.

Lemma iterators_survive_mutation_witness :
  exists (h' : Store.heap Z) (b e : Store.handle AscendingOrder),
    Store.make AscendingOrder 0 [[7; 15; 6]] 0 = Ok (h', (b, e)) /\
    Store.load (Store.mutations 0 [Store.Add 1; Store.Remove (Inside 0); Store.Remove (Outside 9)] h') 0
    = [15; 6; 1] /\
    Store.iterator_at (Store.mutations 0 [Store.Add 1; Store.Remove (Inside 0); Store.Remove (Outside 9)] h') b
    = Iterator AscendingOrder [6; 7; 15] 0.
Proof.
  eexists; eexists; eexists. split; [reflexivity|]. split; [reflexivity|].
  refine (eq_trans (proj1 (@iterators_survive_mutation Z _ _ StdSort_insertion
            AscendingOrder 0%nat [[7; 15; 6]] _ 0%nat _ _
            [Store.Add 1; Store.Remove (Inside 0); Store.Remove (Outside 9)] _ eq_refl)) _).
  - cbn. lia.
  - reflexivity.
Defined.

(* ------------------------------------------------------------------ *)
(** ** Printing *)

Lemma string_app_assoc (a b c : string) : ((a ++ b) ++ c = a ++ b ++ c)%string.
Proof. induction a as [|ch a IH]; cbn; [reflexivity | now rewrite IH]. Qed.

Lemma print_loop {T} `{Element T} (l : list T) :
  forall os : string,
    (fold_left (fun os e => os ++ show e ++ " ") l os ++ endl)%string
    = (os ++ render_spec l)%string.
Proof.
  induction l as [|e l IH]; intros os; cbn [fold_left render_spec fold_right].
  - reflexivity.
  - rewrite IH. fold (render_spec l). now rewrite !string_app_assoc.
Qed.

(** C8. Streaming a container appends to the stream the representation of
    each element in insertion order, each followed by one space, and then a
    line feed; for the empty container that is the line feed alone. *)
Theorem stream_insert_text :
  (forall (T : Type) (E : Element T) (os : string) (c : MyContainer.t T),
      stream_insert os c = (os ++ render_spec (MyContainer.getData c))%string) /\
  (forall (T : Type) (E : Element T) (e : T) (l : list T),
      render_spec (e :: l) = (show e ++ " " ++ render_spec l)%string) /\
  (forall (T : Type) (E : Element T),
      stream_insert EmptyString (@MyContainer.empty T) = endl) /\
  stream_insert EmptyString (MyContainer.mk [42; 17])
  = ("42 17 " ++ endl)%string.
Proof.
  split; [|split; [|split]].
  - intros T E os c. unfold stream_insert, MyContainer.print. apply print_loop.
  - reflexivity.
  - reflexivity.
  - reflexivity.
Qed.

(* ------------------------------------------------------------------ *)
(** ** Permutation and termination *)

(** C9. Each of the six builders returns a pair over one sequence, which is
    a permutation of the snapshot and so has its length. *)
Theorem traversal_is_permutation :
  forall (T : Type) (E : Element T) (S : StdSort T),
    StrictWeakOrder (@ltb T E) -> StrictWeakOrder (@gtb T E) ->
    forall (k : Kind) (fuel : nat) (c : MyContainer.t T),
      fits (MyContainer.getData c) ->
      (length (MyContainer.getData c) <= fuel)%nat ->
      exists b e : iterator T k,
        make k fuel c = Ok (b, e) /\
        view b = view e /\
        Permutation (MyContainer.getData c) (view b) /\
        length (view b) = length (MyContainer.getData c).
Proof.
  intros T E S Hlt Hgt k fuel c Hfits Hfuel.
  rewrite make_traversal by assumption. unfold range.
  eexists; eexists. split; [reflexivity|]. cbn [view].
  split; [reflexivity|]. split; [apply traversal_perm | apply traversal_length].
Qed.

Lemma traversal_is_permutation_witness :
  exists b e : iterator Z SideCrossOrder,
    make SideCrossOrder 5 (MyContainer.mk [10; -20; 190; 190; 5]) = Ok (b, e) /\
    Permutation [10; -20; 190; 190; 5] (view b).
Proof.
  destruct (@traversal_is_permutation Z Element_int StdSort_insertion
              int_lt_swo int_gt_swo SideCrossOrder 5%nat
              (MyContainer.mk [10; -20; 190; 190; 5]))
    as (b & e & Hmake & _ & Hperm & _).
  - unfold fits, size, max_size. cbn. lia.
  - cbn. lia.
  - exists b, e. split; [exact Hmake | exact Hperm].
Defined.

Lemma middle_out_reachable {T} (base : list T) (st0 : middle_out_state T) :
  fits base -> middle_out_inv base st0 ->
  forall (k : nat) (st : middle_out_state T),
    iterate k (middle_out_body base) st0 = Ok st -> middle_out_inv base st.
Proof.
  intros Hfits Hinv0 k st.
  apply (@iterate_invariant _ (middle_out_inv base) (middle_out_body base));
    [|exact Hinv0].
  intros s Hs. destruct (middle_out_step Hfits Hs) as (s' & Hb & Hs' & _).
  now exists s'.
Qed.

(** C10. The middle-out loop terminates: run for [n] rounds or more, in
    particular for [2n], it leaves a sequence of length [n]. A round that
    appends nothing found the selected side exhausted and leaves the flag
    on the side that is not, so the round after it appends. *)
Theorem middle_out_loop_terminates :
  forall (T : Type) (c : MyContainer.t T),
    let base := MyContainer.getData c in
    fits base ->
    (forall fuel : nat, (length base <= fuel)%nat ->
       exists p, MiddleOutOrder_make fuel c = Ok p /\
                 length (view (fst p)) = length base) /\
    (exists p, MiddleOutOrder_make (2 * length base) c = Ok p /\
               length (view (fst p)) = length base) /\
    (base <> [] ->
     exists st0 st,
       middle_out_init base = Ok st0 /\
       while (2 * length base) (middle_out_cond base) (middle_out_body base) st0
       = Ok st /\
       size (mo_seq st) = size base /\
       forall (k : nat) (st_k : middle_out_state T),
         iterate k (middle_out_body base) st0 = Ok st_k ->
         middle_out_cond base st_k = true ->
         exists st',
           middle_out_body base st_k = Ok st' /\
           (mo_seq st' = mo_seq st_k ->
            side_exhausted base st_k = true /\
            side_exhausted base st' = false /\
            exists st'', middle_out_body base st' = Ok st'' /\
                         mo_seq st'' <> mo_seq st')).
Proof.
  intros T c base Hfits.
  assert (Hmake : forall fuel : nat, (length base <= fuel)%nat ->
            exists p, MiddleOutOrder_make fuel c = Ok p /\
                      length (view (fst p)) = length base).
  { intros fuel Hfuel. eexists. split.
    - now apply MiddleOutOrder_make_ok.
    - cbn [range fst view]. symmetry.
      apply Permutation_length, middle_out_spec_perm. }
  split; [exact Hmake|]. split; [apply Hmake; lia|].
  intros Hne.
  destruct (@middle_out_loop _ base Hfits (2 * length base)%nat Hne)
    as (st0 & st & Hinit & Hw & Hseq); [lia|].
  exists st0, st. split; [exact Hinit|]. split; [exact Hw|]. split.
  - rewrite Hseq. unfold size. f_equal. symmetry.
    apply Permutation_length, middle_out_spec_perm.
  - intros k st_k Hk Hcond.
    destruct (middle_out_init_inv Hfits Hne) as (st0' & Hinit' & Hinv0 & _).
    assert (st0' = st0) by congruence. subst st0'.
    pose proof (middle_out_reachable Hfits Hinv0 _ Hk) as Hinv.
    destruct (middle_out_step Hfits Hinv) as (st' & Hbody & Hinv' & Hround).
    exists st'. split; [exact Hbody|]. intros Hsame.
    destruct (Hround Hcond) as (_ & Hflag). destruct (Hflag Hsame) as (Hex & Hex').
    split; [exact Hex|]. split; [exact Hex'|].
    destruct (middle_out_step Hfits Hinv') as (st'' & Hbody' & _ & Hround').
    exists st''. split; [exact Hbody'|]. intros Hsame'.
    assert (Hcond' : middle_out_cond base st' = true)
      by (unfold middle_out_cond in *; now rewrite Hsame).
    destruct (Hround' Hcond') as (_ & Hflag').
    destruct (Hflag' Hsame') as (Hex'' & _). congruence.
Qed.

Lemma middle_out_loop_terminates_witness :
  exists st0 st : middle_out_state Z,
    middle_out_init [8; 9] = Ok st0 /\
    while 4 (middle_out_cond [8; 9]) (middle_out_body [8; 9]) st0 = Ok st /\
    size (mo_seq st) = 2 /\
    exists st', middle_out_body [8; 9] st0 = Ok st' /\
                mo_seq st' = mo_seq st0 /\
                side_exhausted [8; 9] st0 = true /\
                side_exhausted [8; 9] st' = false.
Proof.
  destruct (@middle_out_loop_terminates Z (MyContainer.mk [8; 9])) as (_ & _ & Hloop).
  - unfold fits, size, max_size. cbn. lia.
  - destruct Hloop as (st0 & st & Hinit & Hw & Hsize & Hround); [discriminate|].
    exists st0, st. split; [exact Hinit|]. split; [exact Hw|]. split; [exact Hsize|].
    assert (Hst0 : st0 = MiddleOut [8] (-1) 1 true)
      by (vm_compute in Hinit; congruence).
    destruct (Hround 0%nat st0 eq_refl) as (st' & Hbody & Hflag).
    + rewrite Hst0. reflexivity.
    + exists st'. split; [exact Hbody|].
      assert (Hsame : mo_seq st' = mo_seq st0)
        by (rewrite Hst0 in Hbody |- *; vm_compute in Hbody; inversion Hbody;
            reflexivity).
      split; [exact Hsame|]. destruct (Hflag Hsame) as (H1 & H2 & _).
      split; assumption.
Defined.

(* ================================================================== *)
(** * Further properties of the code *)

(** ** The container *)

(** X1. Elements added one after another to a container stand, in that
    order, after the elements it had; [size()] grows by their number, and a
    container filled from empty holds exactly the values added. *)
Theorem add_all_appends :
  forall (T : Type) (vs : list T) (c : MyContainer.t T),
    MyContainer.getData (add_all vs c) = MyContainer.getData c ++ vs /\
    MyContainer.size (add_all vs c) = MyContainer.size c + size vs /\
    add_all vs MyContainer.empty = MyContainer.mk vs.
Proof.
  intros T vs.
  assert (Hdata : forall c : MyContainer.t T,
             MyContainer.getData (add_all vs c) = MyContainer.getData c ++ vs).
  { unfold add_all. induction vs as [|v vs IH]; intros c; cbn [fold_left].
    - now rewrite app_nil_r.
    - rewrite IH. unfold MyContainer.addElement, MyContainer.getData.
      cbn [MyContainer.data]. now rewrite <- app_assoc. }
  intros c. split; [apply Hdata|]. split.
  - unfold MyContainer.size. fold (MyContainer.getData (add_all vs c)).
    rewrite Hdata. apply size_app.
  - specialize (Hdata MyContainer.empty). cbn in Hdata.
    destruct (add_all vs MyContainer.empty) as [d]. cbn in Hdata. now subst d.
Qed.

Lemma filter_filter_comm {T} (p q : T -> bool) (l : list T) :
  filter p (filter q l) = filter q (filter p l).
Proof.
  induction l as [|x l IH]; [reflexivity|]. cbn [filter].
  destruct (p x) eqn:Hp, (q x) eqn:Hq; cbn [filter];
    rewrite ?Hp, ?Hq, IH; reflexivity.
Qed.

Lemma filter_idempotent {T} (p : T -> bool) (l : list T) :
  filter p (filter p l) = filter p l.
Proof.
  apply filter_all. intros x Hx. now apply filter_In in Hx.
Qed.

(** X2. Removing a value just added to a container that held no element
    equal to it returns, and gives the container back as it was; the
    argument of [removeElement] may be any reference to that value, the
    element just added included. *)
Theorem remove_undoes_add :
  forall (T : Type) (E : Element T) (M : MoveAssign T)
         (v : T) (c : MyContainer.t T) (value : cref T),
    eqb v v = true ->
    (forall e, In e (MyContainer.getData c) -> eqb e v = false) ->
    read (MyContainer.getData (MyContainer.addElement v c)) value = Ok v ->
    MyContainer.removeElement value (MyContainer.addElement v c) = (c, Ok tt).
Proof.
  intros T E M v [data] value Hvv Hfresh Hread.
  cbn [MyContainer.getData MyContainer.addElement MyContainer.data] in *.
  unfold MyContainer.removeElement, MyContainer.addElement, std_remove.
  cbn [MyContainer.data].
  rewrite (find_if_read _ _ Hread).
  pose proof (find_if_outside v (data ++ [v]) []) as Hfind.
  cbn [app length Nat.add] in Hfind. rewrite Hfind.
  rewrite (unmatched_prefix_fresh _ _ Hvv Hfresh). cbn [bind].
  rewrite length_app. cbn [length].
  destruct (Nat.eqb_spec (length data) (length data + 1)) as [Heq|_]; [lia|].
  replace (length data + 1 - S (length data))%nat with 0%nat by lia.
  cbn [remove_loop].
  rewrite firstn_app, Nat.sub_diag, firstn_all, firstn_O, app_nil_r.
  destruct (Z.eqb_spec (size data) (size (data ++ [v]))) as [Heq|_];
    [rewrite size_app in Heq; unfold size in Heq; cbn [length] in Heq; lia|].
  reflexivity.
Qed.

Lemma remove_undoes_add_witness :
  MyContainer.removeElement (Outside 5)
    (MyContainer.addElement 5 (MyContainer.mk [7; 15; 6]))
  = (MyContainer.mk [7; 15; 6], Ok tt) /\
  MyContainer.removeElement (Inside 3)
    (MyContainer.addElement 5 (MyContainer.mk [7; 15; 6]))
  = (MyContainer.mk [7; 15; 6], Ok tt).
Proof.
  split.
  - apply (@remove_undoes_add Z _ _ 5 (MyContainer.mk [7; 15; 6]) (Outside 5)).
    + reflexivity.
    + cbn. intros e [<- | [<- | [<- | []]]]; reflexivity.
    + reflexivity.
  - apply (@remove_undoes_add Z _ _ 5 (MyContainer.mk [7; 15; 6]) (Inside 3)).
    + reflexivity.
    + cbn. intros e [<- | [<- | [<- | []]]]; reflexivity.
    + reflexivity.
Defined.

(** X3. When the value given to [removeElement] is not an element of the
    container itself, then whatever the first call did, a second
    [removeElement] of the same value throws and leaves the container as
    the first call left it. *)
Theorem remove_again_throws :
  forall (T : Type) (E : Element T) (M : MoveAssign T) (v : T) (c : MyContainer.t T),
    let c1 := fst (MyContainer.removeElement (Outside v) c) in
    MyContainer.removeElement (Outside v) c1 = (c1, Throw MyContainer.not_found).
Proof.
  intros T E M v [data] c1. subst c1.
  rewrite !removeElement_outside, remove_value_fst.
  unfold remove_value, kept. cbn [MyContainer.data].
  rewrite filter_idempotent. now rewrite Z.eqb_refl.
Qed.

(** X4. When the value given to [removeElement] is not an element of the
    container itself, the call lowers [size()] by the number of elements
    equal to it: by at least one when it returns, by none when it
    throws. *)
Theorem remove_size_accounting :
  forall (T : Type) (E : Element T) (M : MoveAssign T) (v : T) (c : MyContainer.t T),
    let c' := fst (MyContainer.removeElement (Outside v) c) in
    let r := snd (MyContainer.removeElement (Outside v) c) in
    MyContainer.size c'
    = MyContainer.size c - size (filter (fun e => eqb e v) (MyContainer.getData c)) /\
    (r = Ok tt -> MyContainer.size c' < MyContainer.size c) /\
    (r = Throw MyContainer.not_found -> MyContainer.size c' = MyContainer.size c) /\
    (r = Ok tt \/ r = Throw MyContainer.not_found).
Proof.
  intros T E M v [data] c' r. subst c' r.
  rewrite removeElement_outside.
  unfold remove_value, kept, MyContainer.size, MyContainer.getData.
  cbn [MyContainer.data].
  pose proof (filter_length (fun e => eqb e v) data) as Hsum. cbn beta in Hsum.
  remember (filter (fun e => negb (eqb e v)) data) as rest eqn:Hrest.
  clear Hrest.
  split.
  - destruct (size rest =? size data); cbn [fst MyContainer.data];
      unfold size; lia.
  - destruct (Z.eqb_spec (size rest) (size data)) as [Heq|Hne];
      cbn [fst snd MyContainer.data].
    + split; [discriminate|]. split; [now intros _ | now right].
    + split; [|split; [discriminate | now left]].
      intros _. unfold size in *. lia.
Qed.

Lemma remove_size_accounting_witness :
  MyContainer.size (fst (MyContainer.removeElement (Outside 5) (MyContainer.mk [5; 5; 7])))
  < MyContainer.size (MyContainer.mk [5; 5; 7]).
Proof.
  apply (proj1 (proj2 (@remove_size_accounting Z _ _ 5 (MyContainer.mk [5; 5; 7])))).
  reflexivity.
Defined.

(** X5. Removing two values, neither given as a reference to an element of
    the container, leaves the same contents in either order of the two
    calls. *)
Theorem remove_commutes :
  forall (T : Type) (E : Element T) (M : MoveAssign T) (v w : T) (c : MyContainer.t T),
    fst (MyContainer.removeElement (Outside w)
           (fst (MyContainer.removeElement (Outside v) c)))
    = fst (MyContainer.removeElement (Outside v)
             (fst (MyContainer.removeElement (Outside w) c))).
Proof.
  intros T E M v w [data].
  rewrite !removeElement_outside, !remove_value_fst.
  f_equal. unfold kept. apply filter_filter_comm.
Qed.

(* ------------------------------------------------------------------ *)
(** ** The iterator operators *)

Lemma deref_out_of_range_iff_core {T} `{Element T} {k : Kind} (it : iterator T k) :
  deref it = Throw out_of_range <-> size (view it) <= idx it.
Proof.
  destruct it as [v i]. unfold deref, at_. cbn [view idx].
  destruct (Z.leb_spec (size v) i); [tauto|].
  split; [|lia]. destruct (nth_error v (Z.to_nat i)); discriminate.
Qed.

Lemma deref_nth {T} `{Element T} {k : Kind} (v : list T) (i : nat) (x : T) :
  nth_error v i = Some x -> deref (Iterator k v (Z.of_nat i)) = Ok x.
Proof.
  intros Hx. unfold deref, at_. cbn [view idx].
  assert (i < length v)%nat by (apply nth_error_Some; congruence).
  destruct (Z.leb_spec (size v) (Z.of_nat i)); [unfold size in *; lia|].
  now rewrite Nat2Z.id, Hx.
Qed.

Lemma equal_elements_eq {T} `{Element T} :
  (forall x y : T, eqb x y = true <-> x = y) ->
  forall a b : list T, equal_elements a b = true <-> a = b.
Proof.
  intros Heq a. induction a as [|x a IH]; intros [|y b]; cbn;
    try (split; [reflexivity || discriminate | reflexivity || discriminate]).
  rewrite andb_true_iff, Heq, IH. split.
  - now intros [-> ->].
  - intros E. now inversion E.
Qed.

(** X6. Where [==] on elements is equality, [==] on two iterators of one
    class holds exactly when they have the same index and the same
    sequence, and [!=] is its negation. *)
Theorem iter_eqb_iff_equal :
  forall (T : Type) (E : Element T) (k : Kind),
    (forall x y : T, eqb x y = true <-> x = y) ->
    forall a b : iterator T k,
      (iter_eqb a b = true <-> a = b) /\
      (iter_neqb a b = true <-> a <> b).
Proof.
  intros T E k Heq [va ia] [vb ib].
  assert (Hiff : iter_eqb (Iterator k va ia) (Iterator k vb ib) = true
                 <-> Iterator k va ia = Iterator k vb ib).
  { unfold iter_eqb, vector_eqb. cbn [view idx].
    rewrite !andb_true_iff, Z.eqb_eq, Z.eqb_eq, (equal_elements_eq Heq).
    split.
    - now intros (-> & _ & ->).
    - intros E'. inversion E'. subst. now repeat split. }
  split; [exact Hiff|]. unfold iter_neqb. rewrite negb_true_iff.
  rewrite <- Hiff. now destruct (iter_eqb _ _).
Qed.

Lemma iter_eqb_iff_equal_witness :
  iter_neqb (Iterator Order [10; 20; 30] 0) (Iterator Order [10; 20; 30] 3) = true.
Proof.
  apply (proj2 (@iter_eqb_iff_equal Z Element_int Order Z.eqb_eq _ _)). discriminate.
Defined.

(** X7. Advancing never fails and never touches the sequence: after [n]
    increments the index is the old one plus [n], modulo [2^64]. So
    dereferencing then throws exactly when that wrapped index is at or
    beyond the length; the postfix form leaves the same iterator behind and
    returns the one it started from. *)
Theorem incr_adds_modulo :
  forall (T : Type) (E : Element T) (k : Kind) (it : iterator T k) (n : nat),
    0 <= idx it < 2 ^ 64 ->
    let it' := Nat.iter n incr it in
    view it' = view it /\
    idx it' = (idx it + Z.of_nat n) mod 2 ^ 64 /\
    (deref it' = Throw out_of_range
     <-> size (view it) <= (idx it + Z.of_nat n) mod 2 ^ 64) /\
    post_incr it' = (incr it', it').
Proof.
  intros T E k it n Hidx it'.
  assert (Hit : view it' = view it /\
                idx it' = (idx it + Z.of_nat n) mod 2 ^ 64).
  { subst it'. induction n as [|n IH].
    - change (Nat.iter 0 incr it) with it. split; [reflexivity|].
      rewrite Z.mod_small; lia.
    - rewrite Nat.iter_succ. destruct IH as [IHv IHi].
      remember (Nat.iter n incr it) as p eqn:Hp. clear Hp.
      unfold incr. cbn [view idx]. split; [exact IHv|].
      rewrite IHi. unfold size_t, SIZE_MAX_plus_1.
      rewrite Zplus_mod_idemp_l. f_equal. lia. }
  destruct Hit as [Hv Hi]. split; [exact Hv|]. split; [exact Hi|]. split.
  - rewrite <- Hv, <- Hi. apply deref_out_of_range_iff_core.
  - reflexivity.
Qed.

Lemma incr_adds_modulo_witness :
  idx (incr (Iterator Order [10; 20; 30] (2 ^ 64 - 1))) = 0 /\
  deref (Nat.iter 5 incr (Iterator Order [10; 20; 30] 0)) = Throw out_of_range.
Proof.
  split.
  - refine (proj1 (proj2 (@incr_adds_modulo Z _ Order
              (Iterator Order [10; 20; 30] (2 ^ 64 - 1)) 1%nat _))).
    cbn. lia.
  - refine (proj2 (proj1 (proj2 (proj2 (@incr_adds_modulo Z _ Order
              (Iterator Order [10; 20; 30] 0) 5%nat _)))) _).
    + cbn. lia.
    + vm_compute. discriminate.
Defined.

(* ------------------------------------------------------------------ *)
(** ** Walking a range *)

Lemma while_m_total {S} (Inv : S -> Prop) (measure : S -> nat)
    (cond : S -> result bool) (body : S -> result S) :
  (forall s, Inv s ->
     exists b, cond s = Ok b /\
       (b = true ->
        exists s', body s = Ok s' /\ Inv s' /\ (measure s' < measure s)%nat)) ->
  forall fuel s, Inv s -> (measure s <= fuel)%nat ->
    exists s', while_m fuel cond body s = Ok s' /\ Inv s' /\ cond s' = Ok false.
Proof.
  intros Hstep fuel. induction fuel as [|fuel IH]; intros s Hinv Hfuel;
    destruct (Hstep s Hinv) as (b & Hc & Hb); cbn [while_m]; rewrite Hc; cbn [bind];
    destruct b.
  - destruct (Hb eq_refl) as (s' & _ & _ & Hlt). lia.
  - now exists s.
  - destruct (Hb eq_refl) as (s' & Hbody & Hinv' & Hlt).
    rewrite Hbody. cbn [bind]. apply IH; [assumption | lia].
  - now exists s.
Qed.

Lemma subscript_nth {T} (l : list T) (i : nat) (y : T) :
  nth_error l i = Some y -> subscript l (Z.of_nat i) = Ok y.
Proof.
  intros Hy. unfold subscript.
  assert (i < length l)%nat by (apply nth_error_Some; congruence).
  destruct (Z.leb_spec 0 (Z.of_nat i)); [|lia].
  destruct (Z.ltb_spec (Z.of_nat i) (size l)); [|unfold size in *; lia].
  cbn [andb]. now rewrite Nat2Z.id, Hy.
Qed.

Lemma firstn_snoc {A} (l : list A) (j : nat) (a : A) :
  nth_error l j = Some a -> firstn (S j) l = firstn j l ++ [a].
Proof.
  revert j. induction l as [|x l IH]; intros [|j] Ha; cbn in Ha; try discriminate.
  - now inversion Ha.
  - cbn [firstn app]. f_equal. now apply IH.
Qed.

Lemma nth_error_combine {A B} (l : list A) (l' : list B) (j : nat) (a : A) (b : B) :
  nth_error l j = Some a -> nth_error l' j = Some b ->
  nth_error (combine l l') j = Some (a, b).
Proof.
  revert l' j. induction l as [|x l IH]; intros [|y l'] [|j] Ha Hb;
    cbn in *; try discriminate.
  - now inversion Ha; inversion Hb.
  - now apply IH.
Qed.

Section TraversalTestProof.
Context {T : Type} `{Element T} `{StdSort T}.
Context {lt_swo : StrictWeakOrder (@ltb T _)} {gt_swo : StrictWeakOrder (@gtb T _)}.
Hypothesis eqb_refl : forall x : T, eqb x x = true.
Context (k : Kind) (fuel : nat) (c : MyContainer.t T) (expected : list T).
Hypothesis c_fits : fits (MyContainer.getData c).
Hypothesis fuel_ok : (length (MyContainer.getData c) <= fuel)%nat.
Hypothesis expected_ok : (length (MyContainer.getData c) <= length expected)%nat.

Let v : list T := traversal k (MyContainer.getData c).

Definition traversal_test_inv (st : test_state T k) : Prop :=
  exists j : nat,
    (j <= length v)%nat /\
    st = TestState (Iterator k v (Z.of_nat j)) (Z.of_nat j)
                   (firstn j (element_checks v expected)).

Lemma traversal_test_step (st : test_state T k) :
  traversal_test_inv st ->
  exists b, traversal_test_cond fuel c st = Ok b /\
    (b = true ->
     exists st', traversal_test_body expected st = Ok st' /\
                 traversal_test_inv st' /\
                 (length v - Z.to_nat (ts_i st') < length v - Z.to_nat (ts_i st))%nat).
Proof.
  intros (j & Hj & ->).
  assert (Hlen : length v = length (MyContainer.getData c))
    by (subst v; apply traversal_length).
  unfold traversal_test_cond, end_. rewrite make_traversal by assumption.
  cbn [bind range snd]. fold v. eexists. split; [reflexivity|].
  unfold iter_neqb, iter_eqb. cbn [ts_it view idx].
  rewrite (vector_eqb_refl v eqb_refl), andb_true_r, negb_true_iff.
  intros Hne. apply Z.eqb_neq in Hne. unfold size in Hne.
  assert (Hlt : (j < length v)%nat) by lia.
  destruct (nth_error v j) as [x|] eqn:Hx; [|apply nth_error_None in Hx; lia].
  destruct (nth_error expected j) as [y|] eqn:Hy;
    [|apply nth_error_None in Hy; lia].
  unfold traversal_test_body. cbn [ts_it ts_i ts_checks].
  rewrite (deref_nth _ _ Hx). cbn [bind].
  rewrite (subscript_nth _ _ Hy). cbn [bind].
  unfold fits, max_size, size in c_fits.
  eexists. split; [reflexivity|]. split.
  - exists (S j). split; [lia|]. unfold incr. cbn [view idx].
    rewrite size_t_small by lia.
    replace (Z.of_nat j + 1) with (Z.of_nat (S j)) by lia.
    f_equal. symmetry. apply firstn_snoc. unfold element_checks.
    rewrite nth_error_map. erewrite nth_error_combine by eassumption. reflexivity.
  - cbn [ts_i]. rewrite size_t_small by lia. lia.
Qed.

Lemma traversal_test_result (rounds : nat) :
  (length (MyContainer.getData c) <= rounds)%nat ->
  traversal_test k fuel c expected rounds
  = Ok (element_checks v expected ++ [MyContainer.size c =? size expected]).
Proof.
  intros Hrounds.
  assert (Hlen : length v = length (MyContainer.getData c))
    by (subst v; apply traversal_length).
  unfold traversal_test, begin_. rewrite make_traversal by assumption.
  cbn [bind range fst]. fold v.
  destruct (@while_m_total _ traversal_test_inv
              (fun st => (length v - Z.to_nat (ts_i st))%nat)
              (traversal_test_cond fuel c) (traversal_test_body expected)
              traversal_test_step rounds (TestState (Iterator k v 0) 0 []))
    as (st & Hw & (j & Hj & ->) & Hcond).
  - exists 0%nat. split; [lia | reflexivity].
  - cbn [ts_i]. lia.
  - rewrite Hw. cbn [bind ts_checks ts_i].
    unfold traversal_test_cond, end_ in Hcond.
    rewrite make_traversal in Hcond by assumption.
    cbn [bind range snd] in Hcond. fold v in Hcond.
    unfold iter_neqb, iter_eqb in Hcond. cbn [ts_it view idx] in Hcond.
    rewrite (vector_eqb_refl v eqb_refl), andb_true_r in Hcond.
    inversion Hcond as [Hb]. apply negb_false_iff, Z.eqb_eq in Hb.
    unfold size in Hb. assert (j = length v) by lia. subst j.
    rewrite firstn_all2.
    + do 3 f_equal. unfold MyContainer.size, size, MyContainer.getData in *. lia.
    + unfold element_checks. rewrite length_map, length_combine. lia.
Qed.

End TraversalTestProof.

Lemma element_checks_same {T} `{Element T} (v : list T) :
  (forall x : T, eqb x x = true) ->
  element_checks v v = repeat true (length v).
Proof.
  intros Hrefl. unfold element_checks.
  induction v as [|x v IH]; cbn; [reflexivity|]. now rewrite Hrefl, IH.
Qed.

(** X8. The loop with which the test suite walks a range, from [begin_x()]
    while the iterator differs from a freshly built [end_x()], makes exactly
    [size()] rounds for each of the six orders: round [i] compares element
    [i] of the traversal with [expected[i]], and the final check compares
    [size()] with [expected.size()]. Walked against the traversal itself,
    every check passes. *)
Theorem traversal_test_passes :
  forall (T : Type) (E : Element T) (Srt : StdSort T),
    (forall x : T, eqb x x = true) ->
    StrictWeakOrder (@ltb T E) -> StrictWeakOrder (@gtb T E) ->
    forall (k : Kind) (fuel rounds : nat) (c : MyContainer.t T),
      fits (MyContainer.getData c) ->
      (length (MyContainer.getData c) <= fuel)%nat ->
      (length (MyContainer.getData c) <= rounds)%nat ->
      (forall expected : list T,
          (length (MyContainer.getData c) <= length expected)%nat ->
          traversal_test k fuel c expected rounds
          = Ok (element_checks (traversal k (MyContainer.getData c)) expected
                ++ [MyContainer.size c =? size expected])) /\
      traversal_test k fuel c (traversal k (MyContainer.getData c)) rounds
      = Ok (repeat true (S (length (MyContainer.getData c)))).
Proof.
  intros T E Srt Hrefl Hlt Hgt k fuel rounds c Hfits Hfuel Hrounds.
  split.
  - intros expected Hexp. now apply traversal_test_result.
  - rewrite traversal_test_result; try assumption.
    + rewrite (element_checks_same _ Hrefl), traversal_length.
      unfold MyContainer.size, size. rewrite traversal_length.
      fold (MyContainer.getData c). rewrite Z.eqb_refl.
      f_equal. rewrite <- repeat_cons. reflexivity.
    + rewrite traversal_length. lia.
Qed.

Lemma traversal_test_passes_witness :
  traversal_test MiddleOutOrder 4 (MyContainer.mk [1; 2; 3; 4]) [2; 1; 3; 5] 4
  = Ok [true; true; true; false; true].
Proof.
  refine (proj1 (@traversal_test_passes Z Element_int StdSort_insertion
            Z.eqb_refl int_lt_swo int_gt_swo MiddleOutOrder 4%nat 4%nat
            (MyContainer.mk [1; 2; 3; 4]) _ _ _) [2; 1; 3; 5] _).
  - unfold fits, size, max_size. cbn. lia.
  - cbn. lia.
  - cbn. lia.
  - cbn. lia.
Defined.

(* ------------------------------------------------------------------ *)
(** ** The sorted orders *)

Lemma StronglySorted_snoc {A} (R : A -> A -> Prop) (l : list A) (a : A) :
  StronglySorted R l -> Forall (fun x => R x a) l -> StronglySorted R (l ++ [a]).
Proof.
  induction 1 as [|x l Hl IH Hx]; intros Ha; cbn.
  - repeat constructor.
  - inversion Ha as [|? ? Hxa Hla]; subst. constructor; [now apply IH|].
    apply Forall_app. split; [assumption | now constructor].
Qed.

Lemma StronglySorted_rev {A} (R : A -> A -> Prop) (l : list A) :
  StronglySorted R l -> StronglySorted (fun a b => R b a) (rev l).
Proof.
  induction 1 as [|x l Hl IH Hx]; cbn; [constructor|].
  apply StronglySorted_snoc; [assumption|].
  apply Forall_rev. exact Hx.
Qed.

Lemma StronglySorted_impl {A} (R R' : A -> A -> Prop) (l : list A) :
  (forall a b, R a b -> R' a b) -> StronglySorted R l -> StronglySorted R' l.
Proof.
  intros Himpl. induction 1 as [|x l Hl IH Hx]; constructor; [assumption|].
  eapply Forall_impl; [|exact Hx]. intros b. apply Himpl.
Qed.

Lemma StronglySorted_nth {A} (R : A -> A -> Prop) (l : list A) :
  StronglySorted R l ->
  forall (i j : nat) (x y : A),
    (i < j)%nat -> nth_error l i = Some x -> nth_error l j = Some y -> R x y.
Proof.
  induction 1 as [|a l Hl IH Ha]; intros i j x y Hij Hx Hy.
  - destruct i; discriminate.
  - destruct j as [|j]; [lia|]. cbn in Hy. destruct i as [|i].
    + cbn in Hx. inversion Hx; subst. rewrite Forall_forall in Ha.
      apply Ha. eapply nth_error_In; eassumption.
    + cbn in Hx. apply (IH i j); [lia | assumption | assumption].
Qed.

(** X9. Where [a > b] is [b < a] and elements equivalent under [<] are
    equal, the descending sequence is the ascending one read backwards. *)
Theorem descending_reverses_ascending :
  forall (T : Type) (E : Element T) (Srt : StdSort T),
    StrictWeakOrder (@ltb T E) -> StrictWeakOrder (@gtb T E) ->
    (forall a b : T, gtb a b = ltb b a) ->
    (forall a b : T, ltb a b = false -> ltb b a = false -> a = b) ->
    forall c : MyContainer.t T,
      view (fst (DescendingOrder_make c))
      = rev (view (fst (AscendingOrder_make c))).
Proof.
  intros T E Srt Hlt Hgt Hflip Hanti c.
  unfold DescendingOrder_make, AscendingOrder_make, range. cbn [fst view].
  apply (@sorted_unique T gtb).
  - intros a b. rewrite !Hflip. intros H1 H2. now apply Hanti.
  - now apply std_sort_sorted.
  - apply StronglySorted_impl with (R := fun a b => not_after ltb b a).
    + intros a b Hab. unfold not_after in *. now rewrite Hflip.
    + apply StronglySorted_rev. now apply std_sort_sorted.
  - apply Permutation_trans with (MyContainer.getData c).
    + symmetry. now apply std_sort_perm.
    + apply Permutation_trans with (std_sort ltb (MyContainer.getData c));
        [now apply std_sort_perm | apply Permutation_rev].
Qed.

Lemma descending_reverses_ascending_witness :
  view (fst (@DescendingOrder_make Z _ StdSort_backward (MyContainer.mk [7; 15; 6; 1; 2])))
  = rev [1; 2; 6; 7; 15].
Proof.
  apply (@descending_reverses_ascending Z Element_int StdSort_backward
           int_lt_swo int_gt_swo).
  - intros a b. apply Z.gtb_ltb.
  - exact int_lt_antisym.
Defined.

(** X10. Where elements equivalent under the order are equal, the three
    sorted traversals depend on the values held and not on the order of
    their insertion: two containers holding the same values with the same
    multiplicities give the same ascending, descending and side-cross
    pairs. *)
Theorem sorted_orders_ignore_insertion_order :
  forall (T : Type) (E : Element T) (Srt : StdSort T),
    StrictWeakOrder (@ltb T E) -> StrictWeakOrder (@gtb T E) ->
    (forall a b : T, ltb a b = false -> ltb b a = false -> a = b) ->
    (forall a b : T, gtb a b = false -> gtb b a = false -> a = b) ->
    forall (fuel : nat) (c1 c2 : MyContainer.t T),
      Permutation (MyContainer.getData c1) (MyContainer.getData c2) ->
      AscendingOrder_make c1 = AscendingOrder_make c2 /\
      DescendingOrder_make c1 = DescendingOrder_make c2 /\
      SideCrossOrder_make fuel c1 = SideCrossOrder_make fuel c2.
Proof.
  intros T E Srt Hlt Hgt Hanti_lt Hanti_gt fuel c1 c2 Hperm.
  assert (Hsort : forall comp : T -> T -> bool,
             StrictWeakOrder comp ->
             (forall a b, comp a b = false -> comp b a = false -> a = b) ->
             std_sort comp (MyContainer.getData c1)
             = std_sort comp (MyContainer.getData c2)).
  { intros comp Hswo Hanti. apply (sorted_unique Hanti).
    - now apply std_sort_sorted.
    - now apply std_sort_sorted.
    - apply Permutation_trans with (MyContainer.getData c1);
        [symmetry; now apply std_sort_perm|].
      apply Permutation_trans with (MyContainer.getData c2);
        [exact Hperm | now apply std_sort_perm]. }
  unfold AscendingOrder_make, DescendingOrder_make, SideCrossOrder_make.
  rewrite (Hsort ltb Hlt Hanti_lt), (Hsort gtb Hgt Hanti_gt). repeat split.
Qed.

Lemma sorted_orders_ignore_insertion_order_witness :
  @SideCrossOrder_make Z _ StdSort_backward 5 (MyContainer.mk [7; 15; 6; 1; 2])
  = @SideCrossOrder_make Z _ StdSort_backward 5 (MyContainer.mk [2; 1; 6; 15; 7]).
Proof.
  apply (@sorted_orders_ignore_insertion_order Z Element_int StdSort_backward
           int_lt_swo int_gt_swo int_lt_antisym int_gt_antisym 5%nat
           (MyContainer.mk [7; 15; 6; 1; 2]) (MyContainer.mk [2; 1; 6; 15; 7])).
  apply Permutation_rev.
Defined.

(* ------------------------------------------------------------------ *)
(** ** Side-cross, middle-out and reverse *)

(** X11. The side-cross traversal of a non-empty container starts on a
    least element, one that no element is less than; when there are two
    elements or more, its second element is a greatest one, less than no
    element. *)
Theorem side_cross_low_then_high :
  forall (T : Type) (E : Element T) (Srt : StdSort T),
    StrictWeakOrder (@ltb T E) ->
    forall (fuel : nat) (c : MyContainer.t T),
      fits (MyContainer.getData c) ->
      (length (MyContainer.getData c) <= fuel)%nat ->
      exists b : iterator T SideCrossOrder,
        begin_side_cross_order fuel c = Ok b /\
        ((1 <= length (MyContainer.getData c))%nat ->
         exists lo, deref b = Ok lo /\ In lo (MyContainer.getData c) /\
                    forall e, In e (MyContainer.getData c) -> ltb e lo = false) /\
        ((2 <= length (MyContainer.getData c))%nat ->
         exists hi, deref (incr b) = Ok hi /\ In hi (MyContainer.getData c) /\
                    forall e, In e (MyContainer.getData c) -> ltb hi e = false).
Proof.
  intros T E Srt Hlt fuel c Hfits Hfuel.
  unfold begin_side_cross_order, begin_. cbn [make].
  rewrite SideCrossOrder_make_ok by assumption. cbn [bind range fst].
  set (sorted := std_sort ltb (MyContainer.getData c)).
  assert (Hperm : Permutation (MyContainer.getData c) sorted)
    by now apply std_sort_perm.
  assert (Hsorted : StronglySorted (not_after ltb) sorted)
    by now apply std_sort_sorted.
  assert (Hlen : length sorted = length (MyContainer.getData c))
    by (symmetry; now apply Permutation_length).
  eexists. split; [reflexivity|]. split.
  - intros Hn.
    destruct (nth_error sorted 0) as [lo|] eqn:Hlo;
      [|apply nth_error_None in Hlo; lia].
    exists lo. split; [|split].
    + change 0 with (Z.of_nat 0). apply deref_nth.
      rewrite side_cross_spec_nth by lia. exact Hlo.
    + eapply Permutation_in; [symmetry; exact Hperm|].
      eapply nth_error_In; exact Hlo.
    + intros e He. apply (Permutation_in _ Hperm) in He.
      apply In_nth_error in He as [i Hi]. destruct i as [|i].
      * assert (e = lo) by congruence. subst e. apply swo_irrefl.
      * change (not_after ltb lo e).
        eapply StronglySorted_nth; [exact Hsorted | | exact Hlo | exact Hi]. lia.
  - intros Hn.
    destruct (nth_error sorted (length sorted - 1)) as [hi|] eqn:Hhi;
      [|apply nth_error_None in Hhi; lia].
    exists hi. split; [|split].
    + unfold incr. cbn [view idx]. rewrite size_t_small by lia.
      change (0 + 1) with (Z.of_nat 1). apply deref_nth.
      rewrite side_cross_spec_nth by lia.
      change (Nat.even 1) with false. change (1 / 2)%nat with 0%nat.
      rewrite Nat.sub_0_r. exact Hhi.
    + eapply Permutation_in; [symmetry; exact Hperm|].
      eapply nth_error_In; exact Hhi.
    + intros e He. apply (Permutation_in _ Hperm) in He.
      apply In_nth_error in He as [i Hi].
      assert (Hi' : (i < length sorted)%nat)
        by (apply nth_error_Some; congruence).
      destruct (Nat.eq_dec i (length sorted - 1)) as [-> | Hne].
      * assert (e = hi) by congruence. subst e. apply swo_irrefl.
      * change (not_after ltb e hi).
        eapply StronglySorted_nth; [exact Hsorted | | exact Hi | exact Hhi]. lia.
Qed.

Lemma side_cross_low_then_high_witness :
  exists b : iterator Z SideCrossOrder,
    begin_side_cross_order 5 (MyContainer.mk [7; 15; 6; 1; 2]) = Ok b /\
    deref b = Ok 1 /\ deref (incr b) = Ok 15.
Proof.
  destruct (@side_cross_low_then_high Z Element_int StdSort_insertion int_lt_swo
              5%nat (MyContainer.mk [7; 15; 6; 1; 2]))
    as (b & Hb & Hlo & Hhi).
  - unfold fits, size, max_size. cbn. lia.
  - cbn. lia.
  - exists b. split; [exact Hb|].
    assert (Hb' : b = Iterator SideCrossOrder [1; 15; 2; 7; 6] 0)
      by (vm_compute in Hb; congruence).
    destruct Hlo as (lo & Hd & _); [cbn; lia|].
    destruct Hhi as (hi & Hd' & _); [cbn; lia|].
    rewrite Hb'. split; reflexivity.
Defined.

(** X12. After [removeElement(v)] with a value that is not an element of
    the container itself, whether the call returned or threw, no traversal
    of any of the six orders built from the container holds an element
    equal to [v]. *)
Theorem removed_value_not_visited :
  forall (T : Type) (E : Element T) (M : MoveAssign T) (Srt : StdSort T),
    StrictWeakOrder (@ltb T E) -> StrictWeakOrder (@gtb T E) ->
    forall (k : Kind) (fuel : nat) (v : T) (c : MyContainer.t T),
      fits (MyContainer.getData c) ->
      (length (MyContainer.getData c) <= fuel)%nat ->
      let c' := fst (MyContainer.removeElement (Outside v) c) in
      exists b e : iterator T k,
        make k fuel c' = Ok (b, e) /\
        Forall (fun x => eqb x v = false) (view b) /\
        forall (i : nat) (x : T),
          nth_error (view b) i = Some x -> eqb x v = false.
Proof.
  intros T E M Srt Hlt Hgt k fuel v [data] Hfits Hfuel c'.
  assert (Hc' : c' = MyContainer.mk (kept v data)).
  { subst c'. now rewrite removeElement_outside, remove_value_fst. }
  cbn [MyContainer.getData MyContainer.data] in *.
  pose proof (filter_length_le (fun e => negb (eqb e v)) data) as Hle.
  rewrite Hc'. rewrite make_traversal.
  - unfold range. eexists; eexists. split; [reflexivity|]. cbn [view].
    assert (Hall : Forall (fun x => eqb x v = false)
                     (traversal k (kept v data))).
    { eapply Permutation_Forall; [apply traversal_perm|].
      apply Forall_forall. intros x Hx. unfold kept in Hx.
      apply filter_In in Hx as [_ Hx]. now apply negb_true_iff in Hx. }
    split; [exact Hall|]. intros i x Hx.
    rewrite Forall_forall in Hall. apply Hall. eapply nth_error_In; exact Hx.
  - unfold fits, size, MyContainer.getData, kept in *.
    cbn [MyContainer.data]. lia.
  - unfold MyContainer.getData, kept. cbn [MyContainer.data]. lia.
Qed.

Lemma removed_value_not_visited_witness :
  exists b e : iterator Z SideCrossOrder,
    make SideCrossOrder 4
      (fst (MyContainer.removeElement (Outside 2) (MyContainer.mk [1; 2; 2; 3])))
    = Ok (b, e) /\
    Forall (fun x => eqb x 2 = false) (view b).
Proof.
  destruct (@removed_value_not_visited Z Element_int _ StdSort_insertion
              int_lt_swo int_gt_swo SideCrossOrder 4%nat 2
              (MyContainer.mk [1; 2; 2; 3]))
    as (b & e & Hmake & Hall & _).
  - unfold fits, size, max_size. cbn. lia.
  - cbn. lia.
  - exists b, e. split; [exact Hmake | exact Hall].
Defined.

(** X13. The reverse traversal is the insertion-order traversal read
    backwards: its [i]-th element is element [n-1-i] of the insertion
    order, and it starts on the element added last. *)
Theorem reverse_mirrors_order :
  forall (T : Type) (E : Element T) (c : MyContainer.t T),
    fits (MyContainer.getData c) ->
    (forall i : nat,
        (i < length (MyContainer.getData c))%nat ->
        deref (Nat.iter i incr (fst (ReverseOrder_make c)))
        = deref (Nat.iter (length (MyContainer.getData c) - 1 - i) incr
                          (fst (Order_make c)))) /\
    (forall v : T,
        deref (fst (ReverseOrder_make (MyContainer.addElement v c))) = Ok v).
Proof.
  intros T E [data] Hfits. cbn [MyContainer.getData MyContainer.data] in *.
  unfold fits, max_size, size in Hfits. split.
  - intros i Hi. unfold ReverseOrder_make, Order_make, range.
    cbn [fst MyContainer.getData MyContainer.data].
    rewrite !incr_times by lia.
    destruct (nth_error data (length data - 1 - i)) as [x|] eqn:Hx;
      [|apply nth_error_None in Hx; lia].
    rewrite (deref_nth _ _ Hx). apply deref_nth.
    rewrite nth_error_rev.
    destruct (Nat.ltb_spec i (length data)); [|lia].
    replace (length data - S i)%nat with (length data - 1 - i)%nat by lia.
    exact Hx.
  - intros v. unfold ReverseOrder_make, MyContainer.addElement, range.
    cbn [fst MyContainer.getData MyContainer.data].
    rewrite rev_unit. reflexivity.
Qed.

Lemma reverse_mirrors_order_witness :
  deref (incr (fst (ReverseOrder_make (MyContainer.mk [7; 15; 6; 1; 2]))))
  = Ok 1.
Proof.
  refine (eq_trans (proj1 (@reverse_mirrors_order Z _
            (MyContainer.mk [7; 15; 6; 1; 2]) _) 1%nat _) _).
  - unfold fits, size, max_size. cbn. lia.
  - cbn. lia.
  - reflexivity.
Defined.

Lemma half_succ_succ (k : nat) : (S (S k) / 2 = S (k / 2))%nat.
Proof.
  replace (S (S k)) with (k + 1 * 2)%nat by lia.
  rewrite Nat.div_add by lia. lia.
Qed.

(** Element [k] of an interleaving: while both sequences last, the even
    positions come from the first and the odd ones from the second; after
    that, from the longer one. *)
Lemma interleave_nth {T} (xs : list T) :
  forall (ys : list T) (k : nat),
    nth_error (interleave xs ys) k
    = if (k <? 2 * Nat.min (length xs) (length ys))%nat then
        if Nat.even k then nth_error xs (k / 2) else nth_error ys (k / 2)
      else if (length xs <=? length ys)%nat then nth_error ys (k - length xs)
      else nth_error xs (k - length ys).
Proof.
  induction xs as [|x xs IH]; intros ys k.
  - cbn. now rewrite Nat.sub_0_r.
  - destruct ys as [|y ys].
    + cbn. now rewrite Nat.sub_0_r.
    + cbn [interleave length]. rewrite <- Nat.succ_min_distr.
      destruct k as [|[|k]].
      * reflexivity.
      * destruct (Nat.ltb_spec 1 (2 * S (Nat.min (length xs) (length ys))));
          [reflexivity | lia].
      * cbn [nth_error]. rewrite IH, Nat.even_succ_succ, half_succ_succ.
        cbn [nth_error].
        destruct (Nat.ltb_spec k (2 * Nat.min (length xs) (length ys)));
          destruct (Nat.ltb_spec (S (S k)) (2 * S (Nat.min (length xs) (length ys))));
          try lia; [reflexivity|].
        destruct (Nat.leb_spec (length xs) (length ys));
          destruct (Nat.leb_spec (S (length xs)) (S (length ys))); try lia.
        -- replace (S (S k) - S (length xs))%nat with (S (k - length xs)) by lia.
           reflexivity.
        -- replace (S (S k) - S (length ys))%nat with (S (k - length ys)) by lia.
           reflexivity.
Qed.

Lemma middle_out_spec_nth {T} (l : list T) (k : nat) :
  (k < length l)%nat ->
  nth_error (middle_out_spec l) k
  = nth_error l (middle_out_source (length l) k).
Proof.
  intros Hk.
  assert (Hne : l <> []) by (destruct l; [cbn in Hk; lia | discriminate]).
  destruct (middle_out_spec_split Hne) as (l1 & x & l2 & Hl & Hmid & Hspec).
  rewrite Hspec. unfold middle_out_source. rewrite <- Hmid.
  assert (Hn : length l = (length l1 + S (length l2))%nat)
    by (rewrite Hl at 1; rewrite length_app; reflexivity).
  assert (Hhalf : (2 * length l1 <= length l - 1)%nat).
  { rewrite Hmid. pose proof (Nat.Div0.mul_div_le (length l - 1) 2). lia. }
  assert (Hleft : forall i, (i < length l1)%nat -> nth_error l i = nth_error l1 i)
    by (intros i Hi; rewrite Hl; now apply nth_error_app1).
  assert (Hright : forall t, nth_error l (length l1 + S t) = nth_error l2 t).
  { intros t. rewrite Hl, nth_error_app2 by lia.
    replace (length l1 + S t - length l1)%nat with (S t) by lia. reflexivity. }
  destruct k as [|j].
  - cbn [nth_error Nat.eqb]. rewrite Hl, nth_error_app2, Nat.sub_diag by lia.
    reflexivity.
  - cbn [nth_error Nat.eqb]. rewrite interleave_nth, length_rev.
    rewrite Nat.min_l by lia.
    destruct (Nat.ltb_spec j (2 * length l1));
      destruct (Nat.leb_spec (S j) (2 * length l1)); try lia.
    + destruct (Nat.Even_or_Odd j) as [[q ->] | [q ->]].
      * rewrite Nat.even_succ, Nat.odd_even, Nat.even_even, half_even.
        replace (S (2 * q) + 1)%nat with (2 * (q + 1))%nat by lia.
        rewrite half_even, nth_error_rev.
        destruct (Nat.ltb_spec q (length l1)); [|lia].
        rewrite Hleft by lia. f_equal. lia.
      * rewrite Nat.even_succ, Nat.odd_odd, Nat.even_odd, half_odd.
        replace (S (2 * q + 1)) with (2 * (q + 1))%nat by lia.
        rewrite half_even, <- Hright. f_equal. lia.
    + destruct (Nat.leb_spec (length l1) (length l2)); [|lia].
      rewrite <- Hright. f_equal. lia.
Qed.

(** X14. Element [k] of the middle-out traversal of [n] elements is the
    element of the insertion order at [(n-1)/2] for [k = 0], at
    [(n-1)/2 - (k+1)/2] for odd [k] and [(n-1)/2 + k/2] for even [k] up to
    twice [(n-1)/2], and at [k] itself beyond; so the traversal starts in
    the middle and always ends on the element inserted last. *)
Theorem middle_out_positions :
  forall (T : Type) (fuel : nat) (c : MyContainer.t T),
    fits (MyContainer.getData c) ->
    (length (MyContainer.getData c) <= fuel)%nat ->
    let n := length (MyContainer.getData c) in
    exists b e : iterator T MiddleOutOrder,
      MiddleOutOrder_make fuel c = Ok (b, e) /\
      (forall k : nat, (k < n)%nat ->
         nth_error (view b) k
         = nth_error (MyContainer.getData c) (middle_out_source n k)) /\
      nth_error (view b) 0 = nth_error (MyContainer.getData c) ((n - 1) / 2) /\
      nth_error (view b) (n - 1) = nth_error (MyContainer.getData c) (n - 1).
Proof.
  intros T fuel c Hfits Hfuel n.
  rewrite MiddleOutOrder_make_ok by assumption. unfold range.
  eexists; eexists. split; [reflexivity|]. cbn [view].
  assert (Hpos : forall k : nat, (k < n)%nat ->
            nth_error (middle_out_spec (MyContainer.getData c)) k
            = nth_error (MyContainer.getData c) (middle_out_source n k))
    by (intros k Hk; now apply middle_out_spec_nth).
  split; [exact Hpos|].
  destruct (Nat.eq_dec n 0) as [Hz | Hnz].
  - subst n. apply length_zero_iff_nil in Hz. rewrite Hz. split; reflexivity.
  - split.
    + rewrite Hpos by lia. reflexivity.
    + rewrite Hpos by lia. f_equal. unfold middle_out_source.
      pose proof (Nat.Div0.mul_div_le (n - 1) 2) as Hle.
      destruct (Nat.eqb_spec (n - 1) 0) as [E0 | E0].
      * rewrite E0. reflexivity.
      * destruct (Nat.leb_spec (n - 1) (2 * ((n - 1) / 2))); [|reflexivity].
        assert (Heven : (n - 1 = 2 * ((n - 1) / 2))%nat) by lia.
        assert (Hev : Nat.even (n - 1) = true)
          by (rewrite Heven; apply Nat.even_even).
        rewrite Hev. lia.
Qed.

Lemma middle_out_positions_witness :
  exists b e : iterator Z MiddleOutOrder,
    MiddleOutOrder_make 4 (MyContainer.mk [1; 2; 3; 4]) = Ok (b, e) /\
    nth_error (view b) 3 = Some 4.
Proof.
  destruct (@middle_out_positions Z 4%nat (MyContainer.mk [1; 2; 3; 4]))
    as (b & e & Hmake & _ & _ & Hlast).
  - unfold fits, size, max_size. cbn. lia.
  - cbn. lia.
  - exists b, e. split; [exact Hmake | exact Hlast].
Defined.

(* ------------------------------------------------------------------ *)
(** ** Printing and snapshots *)

(** X15. What a container prints ends with the line feed, and adding an
    element puts its representation and a space just before that line
    feed; streaming two containers one after the other writes the text of
    the first and then the text of the second. *)
Theorem print_composes :
  forall (T : Type) (E : Element T) (os : string) (c c2 : MyContainer.t T) (v : T),
    exists body : string,
      stream_insert os c = (body ++ endl)%string /\
      stream_insert os (MyContainer.addElement v c)
      = (body ++ show v ++ " " ++ endl)%string /\
      stream_insert (stream_insert os c) c2
      = (body ++ endl ++ render_spec (MyContainer.getData c2))%string.
Proof.
  intros T E os [data] [data2] v.
  exists (fold_left (fun os e => os ++ show e ++ " ")%string data os).
  unfold stream_insert, MyContainer.print, MyContainer.addElement.
  cbn [MyContainer.data MyContainer.getData].
  split; [reflexivity|]. split.
  - rewrite fold_left_app. cbn [fold_left]. now rewrite !string_app_assoc.
  - rewrite (print_loop data2). now rewrite string_app_assoc.
Qed.

Lemma load_store_same {T} (h : Store.heap T) (a : nat) (v : list T) :
  (a < length h)%nat -> Store.load (Store.store h a v) a = v.
Proof.
  unfold Store.load. revert a.
  induction h as [|w h IH]; intros a Ha; [cbn in Ha; lia|].
  destruct a as [|a]; cbn; [reflexivity|]. apply IH. cbn in Ha. lia.
Qed.

Lemma length_store {T} (h : Store.heap T) (a : nat) (v : list T) :
  length (Store.store h a v) = length h.
Proof.
  revert a. induction h as [|w h IH]; intros a; [reflexivity|].
  destruct a as [|a]; cbn; [reflexivity|]. now rewrite IH.
Qed.

(** What [make] does to the store: two cells are added, holding the two
    iterators' sequences, and no cell there before is changed. *)
Lemma make_cells {T} `{Element T} `{StdSort T} (k : Kind) (fuel : nat)
    (h h' : Store.heap T) (c : nat) (b e : Store.handle k) :
  Store.make k fuel h c = Ok (h', (b, e)) ->
  length h' = S (S (length h)) /\
  (forall a, (a < length h)%nat -> Store.load h' a = Store.load h a) /\
  (length h <= Store.view_at b)%nat /\ (length h <= Store.view_at e)%nat /\
  make k fuel (MyContainer.mk (Store.load h c))
  = Ok (Store.iterator_at h' b, Store.iterator_at h' e).
Proof.
  intros Hmake. unfold Store.make in Hmake.
  destruct (make k fuel (MyContainer.mk (Store.load h c))) as [[ib ie]| | |];
    cbn [bind] in Hmake; try discriminate.
  cbn [fst snd Store.new_vector] in Hmake. inversion Hmake; subst h' b e.
  cbn [Store.view_at]. rewrite !length_app. cbn [length].
  split; [lia|]. split; [|split; [lia | split; [lia|]]].
  - intros a Ha. unfold Store.load.
    rewrite app_nth1 by (rewrite length_app; cbn; lia). now apply app_nth1.
  - unfold Store.iterator_at, Store.load. cbn [Store.view_at Store.idx_of].
    assert (Hb : nth (length h) ((h ++ [view ib]) ++ [view ie]) [] = view ib).
    { rewrite app_nth1 by (rewrite length_app; cbn; lia).
      rewrite app_nth2, Nat.sub_diag by lia. reflexivity. }
    assert (He : nth (length h + 1) ((h ++ [view ib]) ++ [view ie]) [] = view ie).
    { replace (length h + 1)%nat with (length (h ++ [view ib]))
        by (rewrite length_app; reflexivity).
      rewrite app_nth2, Nat.sub_diag by lia. reflexivity. }
    rewrite Hb, He. destruct ib, ie. reflexivity.
Qed.

(** X16. Iterators are snapshots: a pair built before [addElement(v)] keeps
    the traversal of the old contents, a pair built after it (of any
    order) traverses the old contents followed by [v], and building the
    second pair changes neither the first nor the container. *)
Theorem snapshot_taken_at_make :
  forall (T : Type) (E : Element T) (Srt : StdSort T)
         (k k' : Kind) (fuel fuel' : nat) (h h1 h3 : Store.heap T) (c : nat) (v : T)
         (b1 e1 : Store.handle k) (b2 e2 : Store.handle k'),
    (c < length h)%nat ->
    Store.make k fuel h c = Ok (h1, (b1, e1)) ->
    Store.make k' fuel' (Store.addElement h1 c v) c = Ok (h3, (b2, e2)) ->
    make k fuel (MyContainer.mk (Store.load h c))
    = Ok (Store.iterator_at h3 b1, Store.iterator_at h3 e1) /\
    make k' fuel' (MyContainer.mk (Store.load h c ++ [v]))
    = Ok (Store.iterator_at h3 b2, Store.iterator_at h3 e2) /\
    Store.load h3 c = Store.load h c ++ [v].
Proof.
  intros T E Srt k k' fuel fuel' h h1 h3 c v b1 e1 b2 e2 Hc Hm1 Hm2.
  destruct (make_cells _ _ _ Hm1) as (Hlen1 & Hold1 & Hb1 & He1 & Hpair1).
  destruct (make_cells _ _ _ Hm2) as (Hlen2 & Hold2 & Hb2 & He2 & Hpair2).
  assert (Hadd : Store.load (Store.addElement h1 c v) c = Store.load h c ++ [v]).
  { unfold Store.addElement. rewrite load_store_same by lia.
    cbn [MyContainer.addElement MyContainer.data]. now rewrite Hold1. }
  rewrite Hadd in Hpair2.
  assert (Hlen_add : length (Store.addElement h1 c v) = length h1)
    by (unfold Store.addElement; apply length_store).
  rewrite Hlen_add in Hold2.
  assert (Hlen_b1 : (Store.view_at b1 < length h1)%nat /\
                    (Store.view_at e1 < length h1)%nat).
  { unfold Store.make in Hm1.
    destruct (make k fuel (MyContainer.mk (Store.load h c))) as [[ib ie]| | |];
      cbn [bind] in Hm1; try discriminate.
    cbn [fst snd Store.new_vector] in Hm1. inversion Hm1; subst.
    cbn [Store.view_at]. rewrite !length_app. cbn [length]. lia. }
  destruct Hlen_b1 as [Hlb1 Hle1].
  split; [|split].
  - rewrite Hpair1. unfold Store.iterator_at.
    rewrite !Hold2 by lia.
    unfold Store.addElement.
    rewrite !StoreFacts.load_store_other by lia. reflexivity.
  - exact Hpair2.
  - rewrite Hold2 by lia. exact Hadd.
Qed.

Lemma snapshot_taken_at_make_witness :
  let h3 : Store.heap Z :=
    [[7; 15; 6]; [15; 7]; [15; 7]; [7; 15; 6]; [7; 15; 6]] in
  make ReverseOrder 0 (MyContainer.mk [7; 15])
  = Ok (Store.iterator_at h3 (Store.Handle ReverseOrder 1 0),
        Store.iterator_at h3 (Store.Handle ReverseOrder 2 2)) /\
  make Order 0 (MyContainer.mk [7; 15; 6])
  = Ok (Store.iterator_at h3 (Store.Handle Order 3 0),
        Store.iterator_at h3 (Store.Handle Order 4 3)) /\
  Store.load h3 0 = [7; 15; 6].
Proof.
  apply (@snapshot_taken_at_make Z Element_int StdSort_insertion
           ReverseOrder Order 0%nat 0%nat [[7; 15]]
           [[7; 15]; [15; 7]; [15; 7]]
           [[7; 15; 6]; [15; 7]; [15; 7]; [7; 15; 6]; [7; 15; 6]]
           0%nat 6
           (Store.Handle ReverseOrder 1 0) (Store.Handle ReverseOrder 2 2)
           (Store.Handle Order 3 0) (Store.Handle Order 4 3)).
  - cbn. lia.
  - reflexivity.
  - reflexivity.
Defined.
